(** * Playback orchestration of the HTML5 player overlay

    A shallow embedding of [src/app/player/crunchyroll.ts]: the progress
    report [trackProgress], the [PlayerController] that owns the player,
    and the [SpeedSliderComponent].

    JavaScript numbers are embedded as rationals with one extra value for
    NaN.  Every number the embedded code handles is stored, compared or
    floored, never added or multiplied, so no rounding is lost; the two
    infinities are not represented. *)

From Stdlib Require Import QArith Qround Lqa.
From stdpp Require Import gmap strings list pretty.

Open Scope string_scope.

(** ** JavaScript values *)

Inductive number : Type :=
| Num (q : Q)
| NaN.

(** [a === b] on numbers: numeric equality, false as soon as one side is NaN. *)
Definition number_eq (a b : number) : bool :=
  match a, b with
  | Num x, Num y => Qeq_bool x y
  | _, _ => false
  end.

(** [a < b] on numbers. *)
Definition number_lt (a b : number) : bool :=
  match a, b with
  | Num x, Num y => negb (Qle_bool y x)
  | _, _ => false
  end.

(** [a > b] on numbers. *)
Definition number_gt (a b : number) : bool := number_lt b a.

(** [Math.max] and [Math.min]: NaN as soon as one argument is NaN. *)
Definition Math_max (a b : number) : number :=
  match a, b with
  | Num x, Num y => if Qle_bool x y then Num y else Num x
  | _, _ => NaN
  end.

Definition Math_min (a b : number) : number :=
  match a, b with
  | Num x, Num y => if Qle_bool x y then Num x else Num y
  | _, _ => NaN
  end.

(** [Math.floor]. *)
Definition Math_floor (a : number) : number :=
  match a with
  | Num x => Num (inject_Z (Qfloor x))
  | NaN => NaN
  end.

(** Whether a rational is a whole number. *)
Definition is_integer (x : Q) : bool :=
  Qeq_bool x (inject_Z (Qfloor x)).

(** [Number.prototype.toString]: a whole number below 10^21 in magnitude is
    written with its decimal digits, NaN as the text NaN.  Every other
    number is written with fraction digits or in exponent form, which are
    the engine's business: [render] stands for that. *)
Definition Number_toString (render : Q -> string) (a : number) : string :=
  match a with
  | Num x =>
      if is_integer x && (Z.abs (Qfloor x) <? 10 ^ 21)%Z
      then pretty (Qfloor x)
      else render x
  | NaN => "NaN"
  end.

(** Truthiness of an optional string: defined and not empty. *)
Definition truthy (s : option string) : bool :=
  match s with
  | Some s => negb (String.eqb s EmptyString)
  | None => false
  end.

(** A value stored in an object literal. *)
Inductive JsValue : Type :=
| JNumber (n : number)
| JString (s : string).

(** Property lookup in an object literal kept in source order. *)
Fixpoint prop (k : string) (o : list (string * JsValue)) : option JsValue :=
  match o with
  | [] => None
  | (k', v) :: o => if String.eqb k k' then Some v else prop k o
  end.

(** ** The media model of crunchyroll-lib, as far as the player reads it *)

Record IStream : Type := {
  getFile : string;
  getDuration : number;
  getEncodeId : string;
  getType : string
}.

Record IMetadata : Type := {
  getSeriesTitle : string;
  getEpisodeNumber : string;
  getEpisodeTitle : string;
  getEpisodeImageUrl : string
}.

Definition ISubtitle : Type := string.

Record IMedia : Type := {
  getId : string;
  getStream : IStream;
  getMetadata : IMetadata;
  getSubtitles : list ISubtitle;
  getStartTime : option number;
  isAutoPlay : bool;
  getNextVideoUrl : option string
}.

(** ** [trackProgress] *)

Module Ajax.

Record HttpRequest : Type := {
  method : string;
  target : string;
  body : list (string * JsValue);
  headers : list (string * string)
}.

(** The request [trackProgress] hands to [httpClient.post]; the response is
    awaited and dropped. *)
Definition trackProgress (media : IMedia)
    (currentTime elapsedTime callCount : number) : HttpRequest :=
  let stream := getStream media in
  {| method := "POST";
     target := "http://www.crunchyroll.com/ajax/";
     body :=
       [ ("cbcallcount", JNumber callCount);
         ("h", JString EmptyString);
         ("cbelapsed", JNumber elapsedTime);
         ("video_encode_id", JString (getEncodeId stream));
         ("req", JString "RpcApiVideo_VideoView");
         ("media_type", JString (getType stream));
         ("ht", JString "0");
         ("playhead", JNumber currentTime);
         ("media_id", JString (getId media)) ];
     headers := [ ("Content-Type", "application/x-www-form-urlencoded") ] |}.

(** The seven fields the specification lists for a progress report. *)
Definition spec_report_fields : list string :=
  [ "cbcallcount"; "cbelapsed"; "video_encode_id"; "req"; "media_type";
    "playhead"; "media_id" ].

End Ajax.

(** ** [PlayerController] *)

Module Controller.

(** The object [parse(url, true)] of url-parse returns: the query is an
    object keyed by parameter name; the other parts are kept as they are. *)
Record Url : Type := {
  protocol : string;
  host : string;
  pathname : string;
  query : option (gmap string string);
  hash : string
}.

Definition set_query (u : Url) (q : gmap string string) : Url :=
  {| protocol := protocol u; host := host u; pathname := pathname u;
     query := Some q; hash := hash u |}.

(** Modelled from the spec: [NextVideo] (../media/nextvideo) is not part of
    the sources at hand; a descriptor carries an episode number, an episode
    title, a duration that may be undefined, a source URL and a thumbnail
    URL. *)
Record NextVideo : Type := {
  episodeNumber : string;
  episodeTitle : string;
  nv_duration : option number;
  nv_url : string;
  nv_thumbnailUrl : string
}.

(** The libraries the controller calls into.  Modelled from the spec:
    [fromUrlUsingDocument] parses the page fragment of a next-video URL, and
    malformed or absent data yields no descriptor rather than an error.
    [Number_render] is the engine's way of writing a number that is not a
    whole number below 10^21. *)
Record Library : Type := {
  parse : string -> Url;
  Url_toString : Url -> string;
  fromUrlUsingDocument : string -> option NextVideo;
  Number_render : Q -> string
}.

Record IPlayerControllerOptions : Type := {
  opt_quality : option string;
  opt_mediaFormat : option string;
  opt_mediaQuality : option string;
  opt_startTime : option number;
  opt_sizeEnabled : option bool;
  opt_autoPlay : option bool;
  opt_affiliateId : option string
}.

Record INextVideoConfig : Type := {
  next_title : string;
  next_duration : number;
  next_url : string;
  next_thumbnailUrl : string
}.

Record IPlayerConfig : Type := {
  title : option string;
  url : option string;
  duration : option number;
  subtitles : option (list ISubtitle);
  startTime : option number;
  autoplay : option bool;
  thumbnailUrl : option string;
  nextVideo : option INextVideoConfig
}.

(** The object literal [{ thumbnailUrl: t }]. *)
Definition thumbnail_config (t : string) : IPlayerConfig :=
  {| title := None; url := None; duration := None; subtitles := None;
     startTime := None; autoplay := None; thumbnailUrl := Some t;
     nextVideo := None |}.

Definition with_nextVideo (c : IPlayerConfig) (n : INextVideoConfig)
    : IPlayerConfig :=
  {| title := title c; url := url c; duration := duration c;
     subtitles := subtitles c; startTime := startTime c;
     autoplay := autoplay c; thumbnailUrl := thumbnailUrl c;
     nextVideo := Some n |}.

(** Modelled from the spec: [PlaybackState] (../media/player/IPlayerApi) is
    not part of the sources at hand; the controller only asks whether the
    preferred state is the playing one. *)
Inductive PlaybackState : Type :=
| PLAYING
| NOT_PLAYING.

(** What the widget answers through [getApi()] at a given moment. *)
Record PlayerApi : Type := {
  isFullscreen : bool;
  getCurrentTime : number;
  getPreferredPlaybackState : PlaybackState
}.

(** A reference to the one widget that [render] mounts. *)
Inductive Player : Type :=
| PlayerRef.

(** Modelled from the spec: [VideoTracker] (./Tracking) is not part of the
    sources at hand; a tracker is bound to one Media at construction and is
    active until [dispose()].  [tracker_id] is the identity of the object. *)
Record VideoTracker : Type := {
  tracker_id : nat;
  tracker_media : IMedia
}.

Record NextVideoDetail : Type := {
  detail_url : string;
  detail_thumbnailUrl : string
}.

(** The first arguments of [getMedia] and [getMediaByUrl]: either a format
    and a quality, or the single quality preference. *)
Inductive QualityArg : Type :=
| FormatAndQuality (format quality : option string)
| Quality (quality : option string).

Record IOptions : Type := {
  affiliateId : option string;
  autoPlay : option bool
}.

Inductive Request : Type :=
| GetMedia (mediaId : string) (q : QualityArg) (pageUrl : string)
    (options : IOptions)
| GetMediaByUrl (pageUrl : string) (q : QualityArg) (options : IOptions).

(** Nodes the size toggle touches. *)
Inductive Node : Type :=
| ThisElement
| Showmedia
| ShowmediaParent
| ShowmediaVideo
| MainMedia
| MainMediaFirstChild.

(** What the size toggle finds in the document. *)
Record Document : Type := {
  has_showmedia : bool;
  has_showmedia_video : bool;
  main_content_children : option nat
}.

(** Everything the controller does to its surroundings, in order. *)
Inductive Effect : Type :=
| Listen (eventName : string)
| Call (promise : nat) (r : Request)
| PreventDefault
| Dispose (t : VideoTracker)
| NewVideoTracker (t : VideoTracker)
| LoadVideoByConfig (c : IPlayerConfig)
| CueVideoByConfig (c : IPlayerConfig)
| SetLocationHref (href : string)
| SetAttribute (n : Node) (name value : string)
| ClassListAdd (n : Node) (cls : string)
| ClassListRemove (n : Node) (cls : string)
| InsertBefore (parent child before : Node)
| AppendChild (parent child : Node)
| PlayVideo (resume : bool).

Record PlayerController : Type := {
  _url : string;
  _mediaId : string;
  _sizeEnabled : bool;
  _startTime : option number;
  _autoPlay : option bool;
  _affiliateId : option string;
  _quality : option string;
  _mediaFormat : option string;
  _mediaQuality : option string;
  _player : option Player;
  _changedMedia : bool;
  _tracking : option VideoTracker
}.

(** The controller together with what it shares with its surroundings: the
    widget behind the player reference, the unsettled media resolutions
    keyed by promise, the counters that name new promises and new objects,
    and the effects so far, oldest first. *)
Record World : Type := {
  this : PlayerController;
  widget : PlayerApi;
  pending : gmap nat Request;
  next_promise : nat;
  next_object : nat;
  trace : list Effect
}.

(** *** Construction *)

Definition constructor (url mediaId : string)
    (options : option IPlayerControllerOptions) : PlayerController :=
  match options with
  | Some o =>
      {| _url := url;
         _mediaId := mediaId;
         _sizeEnabled := default false (opt_sizeEnabled o);
         _startTime := opt_startTime o;
         _autoPlay := opt_autoPlay o;
         _affiliateId := opt_affiliateId o;
         _quality :=
           if truthy (opt_quality o) then opt_quality o else Some "360p";
         _mediaFormat := opt_mediaFormat o;
         _mediaQuality := opt_mediaQuality o;
         _player := None;
         _changedMedia := false;
         _tracking := None |}
  | None =>
      {| _url := url;
         _mediaId := mediaId;
         _sizeEnabled := true;
         _startTime := None;
         _autoPlay := None;
         _affiliateId := None;
         _quality := None;
         _mediaFormat := None;
         _mediaQuality := None;
         _player := None;
         _changedMedia := false;
         _tracking := None |}
  end.

(** The world right after construction: nothing requested, nothing done. *)
Definition new_world (c : PlayerController) (api : PlayerApi) : World :=
  {| this := c; widget := api; pending := ∅; next_promise := 0;
     next_object := 0; trace := [] |}.

(** *** Field updates *)

Definition set_url (u : string) (c : PlayerController) : PlayerController :=
  {| _url := u; _mediaId := _mediaId c; _sizeEnabled := _sizeEnabled c;
     _startTime := _startTime c; _autoPlay := _autoPlay c;
     _affiliateId := _affiliateId c; _quality := _quality c;
     _mediaFormat := _mediaFormat c; _mediaQuality := _mediaQuality c;
     _player := _player c; _changedMedia := _changedMedia c;
     _tracking := _tracking c |}.

Definition set_player (p : option Player) (c : PlayerController)
    : PlayerController :=
  {| _url := _url c; _mediaId := _mediaId c; _sizeEnabled := _sizeEnabled c;
     _startTime := _startTime c; _autoPlay := _autoPlay c;
     _affiliateId := _affiliateId c; _quality := _quality c;
     _mediaFormat := _mediaFormat c; _mediaQuality := _mediaQuality c;
     _player := p; _changedMedia := _changedMedia c;
     _tracking := _tracking c |}.

Definition set_changedMedia (b : bool) (c : PlayerController)
    : PlayerController :=
  {| _url := _url c; _mediaId := _mediaId c; _sizeEnabled := _sizeEnabled c;
     _startTime := _startTime c; _autoPlay := _autoPlay c;
     _affiliateId := _affiliateId c; _quality := _quality c;
     _mediaFormat := _mediaFormat c; _mediaQuality := _mediaQuality c;
     _player := _player c; _changedMedia := b;
     _tracking := _tracking c |}.

Definition set_tracking (t : option VideoTracker) (c : PlayerController)
    : PlayerController :=
  {| _url := _url c; _mediaId := _mediaId c; _sizeEnabled := _sizeEnabled c;
     _startTime := _startTime c; _autoPlay := _autoPlay c;
     _affiliateId := _affiliateId c; _quality := _quality c;
     _mediaFormat := _mediaFormat c; _mediaQuality := _mediaQuality c;
     _player := _player c; _changedMedia := _changedMedia c;
     _tracking := t |}.

Definition update (f : PlayerController -> PlayerController) (w : World)
    : World :=
  {| this := f (this w); widget := widget w; pending := pending w;
     next_promise := next_promise w; next_object := next_object w;
     trace := trace w |}.

Definition emit (e : Effect) (w : World) : World :=
  {| this := this w; widget := widget w; pending := pending w;
     next_promise := next_promise w; next_object := next_object w;
     trace := trace w ++ [e] |}.

Definition emits (es : list Effect) (w : World) : World :=
  foldl (fun w e => emit e w) w es.

(** [await] on a media resolution: the call goes out and the rest of the
    handler, which is [_loadMedia] on the result in both handlers, waits
    under a new promise. *)
Definition await (r : Request) (w : World) : World :=
  let p := next_promise w in
  {| this := this w; widget := widget w; pending := <[p := r]> (pending w);
     next_promise := S p; next_object := next_object w;
     trace := trace w ++ [Call p r] |}.

(** [if (this._tracking) { this._tracking.dispose(); this._tracking = undefined; }] *)
Definition dispose_tracking (w : World) : World :=
  match _tracking (this w) with
  | Some t => update (set_tracking None) (emit (Dispose t) w)
  | None => w
  end.

(** [this._tracking = new VideoTracker(media, api)] *)
Definition new_tracking (media : IMedia) (w : World) : World :=
  let t := {| tracker_id := next_object w; tracker_media := media |} in
  {| this := set_tracking (Some t) (this w); widget := widget w;
     pending := pending w; next_promise := next_promise w;
     next_object := S (next_object w);
     trace := trace w ++ [NewVideoTracker t] |}.

(** The quality arguments both resolutions pass. *)
Definition quality_arg (c : PlayerController) : QualityArg :=
  if truthy (_mediaFormat c) && truthy (_mediaQuality c)
  then FormatAndQuality (_mediaFormat c) (_mediaQuality c)
  else Quality (_quality c).

(** [x || 0] on an optional number. *)
Definition or_zero (x : option number) : number :=
  match x with
  | Some (Num q) => if Qeq_bool q 0 then Num 0 else Num q
  | _ => Num 0
  end.

Section Operations.

Variable lib : Library.

(** *** [_onFullscreenChange] *)

Definition _onFullscreenChange (w : World) : World :=
  match _player (this w) with
  | None => w
  | Some _ =>
      if isFullscreen (widget w) then w
      else if negb (_changedMedia (this w)) then w
      else
        let url := parse lib (_url (this w)) in
        let q := match query url with Some q => q | None => ∅ end in
        let t :=
          Number_toString (Number_render lib)
            (Math_floor (getCurrentTime (widget w))) in
        let url := set_query url (<["t" := t]> q) in
        emit (SetLocationHref (Url_toString lib url)) w
  end.

(** *** [_loadMedia] *)

Definition make_title (metadata : IMetadata) : string :=
  getSeriesTitle metadata +:+ " Episode " +:+ getEpisodeNumber metadata
  +:+ " – " +:+ getEpisodeTitle metadata.

Definition make_nextVideo (n : NextVideo) : INextVideoConfig :=
  {| next_title := episodeNumber n +:+ ": " +:+ episodeTitle n;
     next_duration := match nv_duration n with Some d => d | None => NaN end;
     next_url := nv_url n;
     next_thumbnailUrl := nv_thumbnailUrl n |}.

Definition make_config (c : PlayerController) (media : IMedia)
    : IPlayerConfig :=
  let metadata := getMetadata media in
  let stream := getStream media in
  let videoConfig :=
    {| title := Some (make_title metadata);
       url := Some (getFile stream);
       duration := Some (getDuration stream);
       subtitles := Some (getSubtitles media);
       startTime :=
         Some (match _startTime c with
               | None => or_zero (getStartTime media)
               | Some s => s
               end);
       autoplay :=
         Some (match _autoPlay c with
               | None => isAutoPlay media
               | Some a => a
               end);
       thumbnailUrl := Some (getEpisodeImageUrl metadata);
       nextVideo := None |} in
  let nextVideoUrl := getNextVideoUrl media in
  if truthy nextVideoUrl then
    match nextVideoUrl ≫= fromUrlUsingDocument lib with
    | Some nextVideo => with_nextVideo videoConfig (make_nextVideo nextVideo)
    | None => videoConfig
    end
  else videoConfig.

Definition _loadMedia (media : IMedia) (w : World) : World :=
  match _player (this w) with
  | None => w
  | Some _ =>
      let w := dispose_tracking w in
      let videoConfig := make_config (this w) media in
      let w := new_tracking media w in
      if default false (autoplay videoConfig)
      then emit (LoadVideoByConfig videoConfig) w
      else emit (CueVideoByConfig videoConfig) w
  end.

(** *** [_onNextVideo] *)

Definition _onNextVideo (detail : NextVideoDetail) (w : World) : World :=
  match _player (this w) with
  | None => w
  | Some _ =>
      if negb (isFullscreen (widget w)) then w
      else
        let w := emit PreventDefault w in
        let w := update (set_url (detail_url detail)) w in
        let w := update (set_changedMedia true) w in
        let w := dispose_tracking w in
        let w :=
          emit (LoadVideoByConfig
                  (thumbnail_config (detail_thumbnailUrl detail))) w in
        await (GetMediaByUrl (detail_url detail) (quality_arg (this w))
                 {| affiliateId := _affiliateId (this w);
                    autoPlay := Some true |}) w
  end.

(** *** [_onPlayerReady] *)

Definition _onPlayerReady (player : Player) (w : World) : World :=
  let w := update (set_player (Some player)) w in
  let w := emit (Listen "fullscreenchange") w in
  let w := emit (Listen "nextvideo") w in
  await (GetMedia (_mediaId (this w)) (quality_arg (this w)) (_url (this w))
           {| affiliateId := _affiliateId (this w);
              autoPlay := _autoPlay (this w) |}) w.

(** *** [_onSizeChange] *)

Definition _onSizeChange (large : bool) (doc : Document) (w : World)
    : World :=
  match _player (this w), main_content_children doc with
  | Some _, Some children =>
      if has_showmedia doc && has_showmedia_video doc then
        let playing :=
          match getPreferredPlaybackState (widget w) with
          | PLAYING => true
          | NOT_PLAYING => false
          end in
        let w :=
          if large then
            emits [ SetAttribute ThisElement "id" "showmedia_video_box_wide";
                    ClassListRemove ThisElement "xsmall-margin-bottom";
                    ClassListRemove MainMedia "new_layout";
                    ClassListAdd ShowmediaParent "new_layout";
                    ClassListAdd ShowmediaParent "new_layout_wide";
                    InsertBefore ShowmediaParent ShowmediaVideo Showmedia ] w
          else
            emits [ SetAttribute ThisElement "id" "showmedia_video_box";
                    ClassListAdd ThisElement "xsmall-margin-bottom";
                    ClassListRemove ShowmediaParent "new_layout";
                    ClassListRemove ShowmediaParent "new_layout_wide";
                    ClassListAdd MainMedia "new_layout";
                    match children with
                    | O => AppendChild MainMedia ShowmediaVideo
                    | S _ =>
                        InsertBefore MainMedia ShowmediaVideo
                          MainMediaFirstChild
                    end ] w in
        if playing then emit (PlayVideo true) w else w
      else w
  | _, _ => w
  end.

(** *** Sessions *)

(** What can happen to a controller: the widget invokes one of the
    callbacks, a media resolution settles (with a Media, or rejected), or
    the widget changes state on its own. *)
Inductive Operation : Type :=
| PlayerReady (player : Player)
| NextVideoRequested (detail : NextVideoDetail)
| FullscreenChanged
| SizeChanged (large : bool) (doc : Document)
| Settled (promise : nat) (result : option IMedia)
| WidgetChanged (api : PlayerApi).

Definition settle (p : nat) (result : option IMedia) (w : World) : World :=
  match pending w !! p with
  | None => w
  | Some _ =>
      let w :=
        {| this := this w; widget := widget w;
           pending := delete p (pending w);
           next_promise := next_promise w; next_object := next_object w;
           trace := trace w |} in
      match result with
      | Some media => _loadMedia media w
      | None => w
      end
  end.

Definition step (w : World) (op : Operation) : World :=
  match op with
  | PlayerReady player => _onPlayerReady player w
  | NextVideoRequested detail => _onNextVideo detail w
  | FullscreenChanged => _onFullscreenChange w
  | SizeChanged large doc => _onSizeChange large doc w
  | Settled p result => settle p result w
  | WidgetChanged api =>
      {| this := this w; widget := api; pending := pending w;
         next_promise := next_promise w; next_object := next_object w;
         trace := trace w |}
  end.

Definition run (w : World) (ops : list Operation) : World :=
  foldl step w ops.

End Operations.

(** The trackers that are active after a run of effects: constructed and
    not disposed since. *)
Definition active_after (active : list nat) (e : Effect) : list nat :=
  match e with
  | NewVideoTracker t => active ++ [tracker_id t]
  | Dispose t => filter (fun i => i ≠ tracker_id t) active
  | _ => active
  end.

Definition active_trackers (tr : list Effect) : list nat :=
  foldl active_after [] tr.

(** Every tracker in [tr] is constructed at a moment when no tracker is
    active, [active] being the trackers active before [tr]. *)
Fixpoint exclusive (active : list nat) (tr : list Effect) : Prop :=
  match tr with
  | [] => True
  | e :: tr =>
      match e with
      | NewVideoTracker _ => active = []
      | _ => True
      end ∧ exclusive (active_after active e) tr
  end.

(** The tracker the controller holds, by identity. *)
Definition tracking_ids (c : PlayerController) : list nat :=
  match _tracking c with
  | Some t => [tracker_id t]
  | None => []
  end.

(** The controller holds exactly the active trackers, and no tracker was
    ever constructed beside an active one. *)
Definition tracked (w : World) : Prop :=
  active_trackers (trace w) = tracking_ids (this w) ∧
  exclusive [] (trace w).

(** Effects that neither construct nor dispose a tracker. *)
Definition neutral (e : Effect) : bool :=
  match e with
  | NewVideoTracker _ | Dispose _ => false
  | _ => true
  end.

(** A resolution can only be unsettled once the player is there. *)
Definition ready (w : World) : Prop :=
  is_Some (_player (this w)) ∨ pending w = ∅.

(** The page URL a resolution was requested for. *)
Definition origin (r : Request) : string :=
  match r with
  | GetMedia _ _ pageUrl _ => pageUrl
  | GetMediaByUrl pageUrl _ _ => pageUrl
  end.

End Controller.

(** ** [SpeedSliderComponent] *)

Module Slider.

(** The fields of the component that hold its value; the rectangle and the
    element references only serve drawing. *)
Record SpeedSliderComponent : Type := {
  _dragging : bool;
  _incrementValue : number;
  _minValue : number;
  _maxValue : number;
  _value : option number
}.

Inductive Error : Type :=
| RangeError (message : string).

Inductive Completion : Type :=
| Returned
| Thrown (e : Error).

Inductive Effect : Type :=
| SetSpeed (speed : number).

(** How a method ends: normally or by throwing, the component afterwards,
    and the calls made on the player API. *)
Definition Outcome : Type := (Completion * SpeedSliderComponent * list Effect)%type.

(** [isFinite]. *)
Definition isFinite (a : number) : bool :=
  match a with
  | Num _ => true
  | NaN => false
  end.

(** [a >= b] and [a <= b] on numbers. *)
Definition number_ge (a b : number) : bool :=
  match a, b with
  | Num x, Num y => Qle_bool y x
  | _, _ => false
  end.

Definition number_le (a b : number) : bool := number_ge b a.

(** An undefined value used as a number is NaN. *)
Definition to_number (x : option number) : number :=
  match x with
  | Some n => n
  | None => NaN
  end.

Definition constructor (speed : number) : SpeedSliderComponent :=
  {| _dragging := false;
     _incrementValue := Num (5 # 100);
     _minValue := Num (1 # 2);
     _maxValue := Num 4;
     _value := if isFinite speed then Some speed else None |}.

Definition set_value (v : number) (s : SpeedSliderComponent)
    : SpeedSliderComponent :=
  {| _dragging := _dragging s; _incrementValue := _incrementValue s;
     _minValue := _minValue s; _maxValue := _maxValue s; _value := Some v |}.

Definition set_minValue (v : number) (s : SpeedSliderComponent)
    : SpeedSliderComponent :=
  {| _dragging := _dragging s; _incrementValue := _incrementValue s;
     _minValue := v; _maxValue := _maxValue s; _value := _value s |}.

Definition set_maxValue (v : number) (s : SpeedSliderComponent)
    : SpeedSliderComponent :=
  {| _dragging := _dragging s; _incrementValue := _incrementValue s;
     _minValue := _minValue s; _maxValue := v; _value := _value s |}.

(** [_onSpeedChange]: the player reports its speed and the component takes
    it as it comes. *)
Definition _onSpeedChange (speed : number) (s : SpeedSliderComponent)
    : SpeedSliderComponent :=
  set_value speed s.

Definition getValue (s : SpeedSliderComponent) : option number := _value s.
Definition getMinValue (s : SpeedSliderComponent) : number := _minValue s.
Definition getMaxValue (s : SpeedSliderComponent) : number := _maxValue s.

(** [this._value === value] *)
Definition value_is (s : SpeedSliderComponent) (value : number) : bool :=
  match _value s with
  | Some x => number_eq x value
  | None => false
  end.

(** [value < this.getMinValue() || value > this.getMaxValue()] *)
Definition out_of_bounds (s : SpeedSliderComponent) (value : number) : bool :=
  number_lt value (getMinValue s) || number_gt value (getMaxValue s).

Definition setValue (value : number) (s : SpeedSliderComponent) : Outcome :=
  if value_is s value then (Returned, s, [])
  else if out_of_bounds s value
  then (Thrown (RangeError "Value is out of bounds."), s, [])
  else (Returned, set_value value s, [SetSpeed value]).

Definition setMinValue (minValue : number) (s : SpeedSliderComponent)
    : Outcome :=
  if number_eq (_minValue s) minValue then (Returned, s, [])
  else
    let maxValue := getMaxValue s in
    if number_ge minValue maxValue
    then (Thrown (RangeError
            "Minimum value can't be bigger than or equal to the maximum value."),
          s, [])
    else
      let s := set_minValue minValue s in
      setValue
        (Math_min (Math_max minValue (to_number (getValue s))) maxValue) s.

Definition setMaxValue (maxValue : number) (s : SpeedSliderComponent)
    : Outcome :=
  if number_eq (_maxValue s) maxValue then (Returned, s, [])
  else
    let minValue := getMinValue s in
    if number_le maxValue minValue
    then (Thrown (RangeError
            "Maximum value can't be less than or equal to the minimum value."),
          s, [])
    else
      let s := set_maxValue maxValue s in
      setValue
        (Math_min (Math_max minValue (to_number (getValue s))) maxValue) s.

End Slider.

(** ** [parseRpc] *)

Module Rpc.

(** An index given to [substring], brought into the string: below zero it
    counts as zero, beyond the end as the length. *)
Definition clamp_index (i : Z) (len : nat) : nat :=
  Z.to_nat (Z.min (Z.max i 0) (Z.of_nat len)).

(** [s.substring(indexStart, indexEnd)]: both indices are clamped, and
    swapped when the first is the larger one.  Characters stand for the code
    units of the JavaScript string. *)
Definition js_substring (s : string) (indexStart indexEnd : Z) : string :=
  let len := String.length s in
  let a := clamp_index indexStart len in
  let b := clamp_index indexEnd len in
  String.substring (Nat.min a b) (Nat.max a b - Nat.min a b) s.

Definition startTag : string := "/*-secure-".
Definition endTag : string := "*/".

Section Parse.

(** [JSON.parse] is the engine's: it yields a value or throws. *)
Variable Json : Type.
Variable JSON_parse : string -> option Json.

(** [None] is the exception of the second [JSON.parse], which nothing
    catches. *)
Definition parseRpc (json : string) : option Json :=
  match JSON_parse json with
  | Some v => Some v
  | None =>
      JSON_parse
        (js_substring json
           (Z.of_nat (String.length startTag))
           (Z.of_nat (String.length json) - Z.of_nat (String.length endTag)))
  end.

End Parse.

End Rpc.

(** ** The page around the controller *)

Module Page.

Import Stdlib.Strings.Ascii Stdlib.Strings.String.
Import Controller.

(** [[a-zA-Z]] *)
Definition is_letter (c : ascii) : bool :=
  let n := nat_of_ascii c in
  (65 <=? n)%nat && (n <=? 90)%nat || (97 <=? n)%nat && (n <=? 122)%nat.

(** The longest run of letters at the head of [cs], and what follows it. *)
Fixpoint span_letters (cs : list ascii) : list ascii * list ascii :=
  match cs with
  | c :: cs' =>
      if is_letter c
      then let (letters, rest) := span_letters cs' in (c :: letters, rest)
      else ([], cs)
  | [] => ([], [])
  end.

(** Letters only. *)
Definition letters (cs : list ascii) : Prop :=
  Forall (fun c => is_letter c = true) cs.

(** Nothing, or something that does not start with a letter. *)
Definition stops (rest : list ascii) : Prop :=
  match rest with
  | c :: _ => is_letter c = false
  | [] => True
  end.

(** The match of [/_[a-zA-Z]+(\.[a-zA-Z]+)$/] in [cs], read from the end of
    the string: the letters of the extension, the dot, the letters before
    it, the underscore.  As neither the dot nor the underscore is a letter,
    there is at most one match.  The result is what precedes the match and
    the letters of the extension. *)
Definition match_thumbnail (cs : list ascii)
    : option (list ascii * list ascii) :=
  let (ext, r1) := span_letters (rev cs) in
  match ext, r1 with
  | _ :: _, "."%char :: r2 =>
      let (name, r3) := span_letters r2 in
      match name, r3 with
      | _ :: _, "_"%char :: r4 => Some (rev r4, rev ext)
      | _, _ => None
      end
  | _, _ => None
  end.

(** [url.replace(/_[a-zA-Z]+(\.[a-zA-Z]+)$/, "_full$1")] *)
Definition replace_with_full (url : list ascii) : list ascii :=
  match match_thumbnail url with
  | Some (before, ext) =>
      (before ++ list_ascii_of_string "_full." ++ ext)%list
  | None => url
  end.

Section Document.

(** What the document holds for a media id: no matching image ([None]), an
    image without [src] ([Some None]), or the [src] of the image. *)
Variable mug_src : string -> option (option string).

Definition _getThumbnailByMediaId (mediaId : string) : option string :=
  match mug_src mediaId with
  | None => None
  | Some src =>
      if truthy src
      then (fun url =>
              string_of_list_ascii
                (replace_with_full (list_ascii_of_string url))) <$> src
      else None
  end.

(** The object literal [{}]. *)
Definition empty_config : IPlayerConfig :=
  {| title := None; url := None; duration := None; subtitles := None;
     startTime := None; autoplay := None; thumbnailUrl := None;
     nextVideo := None |}.

Definition _getDefaultConfig (c : PlayerController) : IPlayerConfig :=
  let thumbnailUrl := _getThumbnailByMediaId (_mediaId c) in
  match thumbnailUrl with
  | Some t => if truthy thumbnailUrl then thumbnail_config t else empty_config
  | None => empty_config
  end.

End Document.

(** The [id] attribute of the mount element after the effects [tr], [id0]
    being the one it had before. *)
Definition element_id (id0 : string) (tr : list Effect) : string :=
  foldl (fun id e =>
           match e with
           | SetAttribute ThisElement name value =>
               if String.eqb name "id" then value else id
           | _ => id
           end) id0 tr.

(** [get large()] *)
Definition large (id0 : string) (w : World) : bool :=
  String.eqb (element_id id0 (trace w)) "showmedia_video_box_wide".

Definition isSizeEnabled (c : PlayerController) : bool := _sizeEnabled c.

(** What [render] passes to the widget besides the two callbacks. *)
Record PlayerProps : Type := {
  props_large : bool;
  props_sizeEnabled : bool;
  props_config : IPlayerConfig
}.

Definition render (mug_src : string -> option (option string))
    (id0 : string) (w : World) : PlayerProps :=
  {| props_large := large id0 w;
     props_sizeEnabled := isSizeEnabled (this w);
     props_config := _getDefaultConfig mug_src (this w) |}.

(** Whether the size toggle goes through: the player is there and the three
    nodes are found. *)
Definition can_resize (doc : Document) (w : World) : bool :=
  bool_decide (is_Some (_player (this w)))
  && bool_decide (is_Some (main_content_children doc))
  && has_showmedia doc && has_showmedia_video doc.

(** Effects on the layout of the page. *)
Definition is_layout (e : Effect) : bool :=
  match e with
  | SetAttribute _ _ _ | ClassListAdd _ _ | ClassListRemove _ _
  | InsertBefore _ _ _ | AppendChild _ _ => true
  | _ => false
  end.

End Page.

(** ** Sessions of the controller, seen from outside *)

Module Session.

Import Controller.

(** The effects one operation adds. *)
Definition new_effects (lib : Library) (w : World) (op : Operation)
    : list Effect :=
  drop (length (trace w)) (trace (step lib w op)).

Definition is_PlayerReady (op : Operation) : bool :=
  match op with
  | PlayerReady _ => true
  | _ => false
  end.

(** What construction fixes for the whole session. *)
Definition same_options (c c' : PlayerController) : Prop :=
  _mediaId c = _mediaId c' ∧ _sizeEnabled c = _sizeEnabled c' ∧
  _startTime c = _startTime c' ∧ _autoPlay c = _autoPlay c' ∧
  _affiliateId c = _affiliateId c' ∧ _quality c = _quality c' ∧
  _mediaFormat c = _mediaFormat c' ∧ _mediaQuality c = _mediaQuality c'.

Definition request_quality (r : Request) : QualityArg :=
  match r with
  | GetMedia _ q _ _ => q
  | GetMediaByUrl _ q _ => q
  end.

Definition request_options (r : Request) : IOptions :=
  match r with
  | GetMedia _ _ _ o => o
  | GetMediaByUrl _ _ o => o
  end.

(** A quality argument the resolution service can use: no part of it is
    undefined or empty. *)
Definition usable (q : QualityArg) : bool :=
  match q with
  | FormatAndQuality format quality => truthy format && truthy quality
  | Quality quality => truthy quality
  end.

(** What a controller with the options of [c0] may add to the effects: a
    request carries the quality selection and the affiliate id of [c0]; a
    configuration with a source is the one built from some Media under the
    options of [c0], loaded when its autoplay is true and cued when it is
    false. *)
Definition expected (lib : Library) (c0 : PlayerController) (e : Effect)
    : Prop :=
  match e with
  | Call _ r =>
      request_quality r = quality_arg c0 ∧
      affiliateId (request_options r) = _affiliateId c0
  | LoadVideoByConfig c =>
      url c = None ∨
      ∃ media, c = make_config lib c0 media ∧ autoplay c = Some true
  | CueVideoByConfig c =>
      ∃ media, c = make_config lib c0 media ∧ autoplay c = Some false
  | _ => True
  end.

(** The requests among the effects. *)
Definition requests (tr : list Effect) : list Request :=
  omap (fun e => match e with Call _ r => Some r | _ => None end) tr.

(** The configurations of resolved Media among the effects, each with the
    way it was handed over ([true] for load, [false] for cue); the
    placeholder of a transition has no source and is left out. *)
Definition media_configs (tr : list Effect) : list (bool * IPlayerConfig) :=
  omap (fun e =>
          match e with
          | LoadVideoByConfig c =>
              if bool_decide (is_Some (url c)) then Some (true, c) else None
          | CueVideoByConfig c =>
              if bool_decide (is_Some (url c)) then Some (false, c) else None
          | _ => None
          end) tr.

End Session.

(** ** Sample data *)

Module Sample.

Definition stream1 : IStream :=
  {| getFile := "https://cdn.example/ep2.m3u8"; getDuration := Num 1420;
     getEncodeId := "e77"; getType := "1" |}.

Definition metadata1 : IMetadata :=
  {| getSeriesTitle := "Series"; getEpisodeNumber := "2";
     getEpisodeTitle := "Second"; getEpisodeImageUrl := "/img/ep2_full.jpg" |}.

(** The Media behind the page /ep2; its successor is /ep3. *)
Definition media_ep2 : IMedia :=
  {| getId := "M2"; getStream := stream1; getMetadata := metadata1;
     getSubtitles := []; getStartTime := None; isAutoPlay := true;
     getNextVideoUrl := Some "/ep3" |}.

(** A slider whose player reported speed 5, above the maximum of 4. *)
Definition fast_slider : Slider.SpeedSliderComponent :=
  Slider._onSpeedChange (Num 5) (Slider.constructor (Num 1)).

(** A stand-in for url-parse on the sample pages: each is a bare path on
    the site and carries the one query parameter [skip_wall]. *)
Definition sample_parse (u : string) : Controller.Url :=
  {| Controller.protocol := "http:";
     Controller.host := "www.crunchyroll.com";
     Controller.pathname := u;
     Controller.query := Some {[ "skip_wall" := "1" ]};
     Controller.hash := EmptyString |}.

Definition sample_toString (u : Controller.Url) : string :=
  Controller.protocol u +:+ "//" +:+ Controller.host u
  +:+ Controller.pathname u +:+ "?"
  +:+ String.concat "&"
        (map (fun kv => kv.1 +:+ "=" +:+ kv.2)
           (map_to_list (default ∅ (Controller.query u)))).

(** A stand-in for the engine's writing of fractions and of very large
    numbers: numerator, a slash, denominator. *)
Definition sample_render (x : Q) : string :=
  pretty (Qnum x) +:+ "/" +:+ pretty (Zpos (Qden x)).

(** The libraries of a page on which no next-video fragment parses. *)
Definition lib0 : Controller.Library :=
  {| Controller.parse := sample_parse;
     Controller.Url_toString := sample_toString;
     Controller.fromUrlUsingDocument := fun _ => None;
     Controller.Number_render := sample_render |}.

Definition windowed : Controller.PlayerApi :=
  {| Controller.isFullscreen := false;
     Controller.getCurrentTime := Num (5 # 2);
     Controller.getPreferredPlaybackState := Controller.PLAYING |}.

Definition fullscreen : Controller.PlayerApi :=
  {| Controller.isFullscreen := true;
     Controller.getCurrentTime := Num (5 # 2);
     Controller.getPreferredPlaybackState := Controller.PLAYING |}.

Definition to_ep2 : Controller.NextVideoDetail :=
  {| Controller.detail_url := "/ep2";
     Controller.detail_thumbnailUrl := "/img/ep2_full.jpg" |}.

Definition to_ep3 : Controller.NextVideoDetail :=
  {| Controller.detail_url := "/ep3";
     Controller.detail_thumbnailUrl := "/img/ep3_full.jpg" |}.

(** A controller made without options for the page /ep1, before anything
    happened. *)
Definition start : Controller.World :=
  Controller.new_world (Controller.constructor "/ep1" "M1" None) windowed.

(** The same controller once the player is ready and in fullscreen. *)
Definition immersed : Controller.World :=
  Controller.run lib0 start
    [ Controller.PlayerReady Controller.PlayerRef;
      Controller.WidgetChanged fullscreen ].

End Sample.

(** ** The slider under keyboard input *)

Module SliderInput.

Import Slider.

Inductive InputEffect : Type :=
| Api (e : Effect)
| StopPropagation
| PreventDefault.

Definition KeyOutcome : Type :=
  (Completion * SpeedSliderComponent * list InputEffect)%type.

Section Arithmetic.

(** The additions and subtractions of the engine, with whatever rounding
    they do. *)
Variables add sub : number -> number -> number.

(** [Math.min(Math.max(this.getMinValue(), v), this.getMaxValue())] *)
Definition restrain (s : SpeedSliderComponent) (v : number) : number :=
  Math_min (Math_max (getMinValue s) v) (getMaxValue s).

(** A handled key: [setValue], and if that returns, the event is stopped;
    an exception from [setValue] leaves the event alone. *)
Definition handled (value : number) (s : SpeedSliderComponent) : KeyOutcome :=
  match setValue value s with
  | (Returned, s', es) =>
      (Returned, s', (Api <$> es) ++ [StopPropagation; PreventDefault])%list
  | (Thrown e, s', es) => (Thrown e, s', Api <$> es)
  end.

Definition _onKeyDown (keyCode : Z) (s : SpeedSliderComponent) : KeyOutcome :=
  match keyCode with
  | 35%Z => handled (getMaxValue s) s
  | 36%Z => handled (getMinValue s) s
  | 37%Z | 40%Z =>
      handled
        (restrain s (sub (to_number (getValue s)) (_incrementValue s))) s
  | 38%Z | 39%Z =>
      handled
        (restrain s (add (to_number (getValue s)) (_incrementValue s))) s
  | _ => (Returned, s, [])
  end.

(** [componentDidMount], as far as the value goes: the speed of the player
    is taken as it is. *)
Definition componentDidMount (speed : number) (s : SpeedSliderComponent)
    : SpeedSliderComponent :=
  set_value speed s.

Inductive Operation : Type :=
| SetValue (value : number)
| SetMinValue (minValue : number)
| SetMaxValue (maxValue : number)
| SpeedChanged (speed : number)
| KeyDown (keyCode : Z)
| Mounted (speed : number).

Definition lift (o : Outcome) : KeyOutcome :=
  (o.1.1, o.1.2, Api <$> o.2).

Definition step (s : SpeedSliderComponent) (op : Operation) : KeyOutcome :=
  match op with
  | SetValue v => lift (setValue v s)
  | SetMinValue v => lift (setMinValue v s)
  | SetMaxValue v => lift (setMaxValue v s)
  | SpeedChanged v => (Returned, _onSpeedChange v s, [])
  | KeyDown k => _onKeyDown k s
  | Mounted v => (Returned, componentDidMount v s, [])
  end.

(** The component after a series of operations; one that throws leaves the
    component as it was at the throw. *)
Definition after (s : SpeedSliderComponent) (ops : list Operation)
    : SpeedSliderComponent :=
  foldl (fun s op => (step s op).1.2) s ops.

End Arithmetic.

(** Operations that set a bound give a number, not NaN. *)
Definition finite_bound (op : Operation) : bool :=
  match op with
  | SetMinValue v | SetMaxValue v => isFinite v
  | _ => true
  end.

(** The value lies between the bounds. *)
Definition within_bounds (s : SpeedSliderComponent) : bool :=
  match _value s with
  | Some v => number_le (getMinValue s) v && number_le v (getMaxValue s)
  | None => false
  end.

End SliderInput.

(** ** [SpeedButton] *)

Module Button.

Record SpeedButton : Type := {
  _state : number;
  _mouseover : bool
}.

(** Which of the optional callbacks the owner gave. *)
Record ISpeedButtonProps : Type := {
  onHover : bool;
  onEndHover : bool
}.

Inductive Effect : Type :=
| SetSpeed (speed : number)
| SetTextContent (text : string)
| OnHover
| OnEndHover.

(** A new button, whose label is rendered as 1.00x. *)
Definition initial : SpeedButton := {| _state := Num 1; _mouseover := false |}.

Definition rendered_text : string := "1.00x".

Section Format.

(** [state.toFixed(2)] is the engine's. *)
Variable toFixed2 : number -> string.
Variable props : ISpeedButtonProps.

Definition _onClick (b : SpeedButton) : SpeedButton * list Effect :=
  (b, [SetSpeed (Num 1)]).

Definition _setState (state : number) (b : SpeedButton)
    : SpeedButton * list Effect :=
  if number_eq (_state b) state then (b, [])
  else ({| _state := state; _mouseover := _mouseover b |},
        [SetTextContent (toFixed2 state +:+ "x")]).

Definition _onMouseOver (b : SpeedButton) : SpeedButton * list Effect :=
  ({| _state := _state b; _mouseover := true |},
   if onHover props then [OnHover] else []).

Definition _onMouseOut (b : SpeedButton) : SpeedButton * list Effect :=
  ({| _state := _state b; _mouseover := false |},
   if onEndHover props then [OnEndHover] else []).

Definition _onSpeedData (speed : number) (b : SpeedButton)
    : SpeedButton * list Effect :=
  let (b, es) := _setState speed b in
  if _mouseover b
  then let (b, es') := _onMouseOver b in (b, (es ++ es')%list)
  else (b, es).

Inductive Operation : Type :=
| Click
| SpeedChanged (speed : number)
| MouseOver
| MouseOut
| Mounted (speed : number).

Definition step (b : SpeedButton) (op : Operation)
    : SpeedButton * list Effect :=
  match op with
  | Click => _onClick b
  | SpeedChanged speed => _onSpeedData speed b
  | MouseOver => _onMouseOver b
  | MouseOut => _onMouseOut b
  | Mounted speed => _onSpeedData speed b
  end.

(** The button and everything it did after a series of operations. *)
Definition run (ops : list Operation) : SpeedButton * list Effect :=
  foldl (fun st op =>
           let (b, es) := step st.1 op in (b, (st.2 ++ es)%list))
    (initial, []) ops.

End Format.

(** The label after the effects [tr]. *)
Definition label (tr : list Effect) : string :=
  foldl (fun text e =>
           match e with
           | SetTextContent t => t
           | _ => text
           end) rendered_text tr.

(** The label and the state agree: either the label is still the rendered
    one and the state the initial one, or the label is the state to two
    decimals followed by an x. *)
Definition agree (toFixed2 : number -> string)
    (st : SpeedButton * list Effect) : Prop :=
  (label st.2 = rendered_text ∧ _state st.1 = Num 1) ∨
  label st.2 = toFixed2 (_state st.1) +:+ "x".

End Button.

(** ** More sample data *)

Module Scenario.

(** A stand-in for [JSON.parse] that accepts what opens with a brace. *)
Definition braces (s : string) : option string :=
  if Stdlib.Strings.String.prefix "{" s then Some s else None.

(** A stand-in for [JSON.parse] that accepts the text 12 only. *)
Definition twelve (s : string) : option string :=
  if String.eqb s "12" then Some s else None.

(** An engine that computes exactly. *)
Definition exact_add (a b : number) : number :=
  match a, b with
  | Num x, Num y => Num (x + y)
  | _, _ => NaN
  end.

Definition exact_sub (a b : number) : number :=
  match a, b with
  | Num x, Num y => Num (x - y)
  | _, _ => NaN
  end.

Definition all_options : Controller.IPlayerControllerOptions :=
  {| Controller.opt_quality := None;
     Controller.opt_mediaFormat := Some "adaptive_hls";
     Controller.opt_mediaQuality := None;
     Controller.opt_startTime := Some (Num 90);
     Controller.opt_sizeEnabled := Some true;
     Controller.opt_autoPlay := Some false;
     Controller.opt_affiliateId := Some "af-1" |}.

(** A session that goes to fullscreen, moves on to /ep2 and sees both
    resolutions settle. *)
Definition two_episodes : list Controller.Operation :=
  [ Controller.PlayerReady Controller.PlayerRef;
    Controller.Settled 0 (Some Sample.media_ep2);
    Controller.WidgetChanged Sample.fullscreen;
    Controller.NextVideoRequested Sample.to_ep2;
    Controller.Settled 1 (Some Sample.media_ep2) ].

Definition full_page : Controller.Document :=
  {| Controller.has_showmedia := true;
     Controller.has_showmedia_video := true;
     Controller.main_content_children := Some 3%nat |}.

End Scenario.

(** ** A model of url-parse *)

Module UrlParse.

Import Stdlib.Strings.Ascii Stdlib.Strings.String.
Import Controller.

(** The two slices url-parse takes at [address.indexOf(c)]: what comes
    before the first [c], and the rest from that [c] on (nothing when there
    is no [c]). *)
Fixpoint cut (c : ascii) (s : list ascii) : list ascii * list ascii :=
  match s with
  | [] => ([], [])
  | a :: s' =>
      if Ascii.eqb a c then ([], s)
      else let (before, rest) := cut c s' in (a :: before, rest)
  end.

(** The longest run of characters that satisfy [p] at the head of [s], and
    what follows it. *)
Fixpoint run_of (p : ascii -> bool) (s : list ascii)
    : list ascii * list ascii :=
  match s with
  | a :: s' =>
      if p a then let (taken, rest) := run_of p s' in (a :: taken, rest)
      else ([], s)
  | [] => ([], [])
  end.

(** The characters a parameter name cannot hold: [=?#&]. *)
Definition is_separator (c : ascii) : bool :=
  Ascii.eqb c "="%char || Ascii.eqb c "?"%char || Ascii.eqb c "#"%char
  || Ascii.eqb c "&"%char.

(** The successive matches of the pattern of querystringify in a query: a
    name (one or more characters other than [=?#&]), an optional equals
    sign, a value up to the next ampersand.  Names and values are taken as
    they stand,
    which is what decoding does to text without percent or plus signs.
    [fuel] bounds the number of characters looked at. *)
Fixpoint matches (fuel : nat) (s : list ascii) : list (string * string) :=
  match fuel, s with
  | S fuel, c :: s' =>
      if is_separator c then matches fuel s'
      else
        let (name, r) := run_of (fun c => negb (is_separator c)) s in
        let r :=
          match r with
          | a :: r' => if Ascii.eqb a "="%char then r' else r
          | [] => r
          end in
        let (value, r) := run_of (fun c => negb (Ascii.eqb c "&"%char)) r in
        (string_of_list_ascii name, string_of_list_ascii value)
        :: matches fuel r
  | _, _ => []
  end.

(** The parse of querystringify: an object with one entry per name; a name
    that is already there is skipped. *)
Definition querystring (query : list ascii) : gmap string string :=
  foldl (fun result kv =>
           match result !! kv.1 with
           | Some _ => result
           | None => <[kv.1 := kv.2]> result
           end) ∅ (matches (List.length query) query).


(** [parse(address, true)]: the hash is cut off at the first hash sign,
    then the query at the first question mark, and the query is parsed.
    What is left, which url-parse takes apart into protocol, host and path
    and joins again when writing, is kept whole in [pathname]; an address
    without protocol and host, which url-parse completes from the location
    of the page, is not covered. *)
Definition parse (address : string) : Url :=
  let (rest, hash) := cut "#"%char (list_ascii_of_string address) in
  let (head, query) := cut "?"%char rest in
  {| protocol := EmptyString;
     host := EmptyString;
     pathname := string_of_list_ascii head;
     query := Some (querystring query);
     hash := string_of_list_ascii hash |}.




End UrlParse.

(** ** Properties of [trackProgress] *)

Section ProgressReport.

Import Ajax.

(** C9, as stated, fails: a progress report carries a field [h], which is
    none of the seven fields listed for it. *)
Lemma trackProgress_has_more_fields :
  let r := trackProgress Sample.media_ep2 (Num 12) (Num 30) (Num 1) in
  ("h" ∈ (body r).*1) ∧ ("h" ∉ spec_report_fields) ∧
  length (body r) = 9%nat ∧ length spec_report_fields = 7%nat.
Proof.
  cbn. split; [| split; [| done]].
  - set_solver.
  - intros H. apply list_elem_of_In in H. cbn in H. intuition discriminate.
Qed.

(** C9, amended: every progress report is a POST with the form-encoded
    content type whose fields are the call count, the elapsed time, the
    encode id of the stream, the request tag, the media type, the playhead
    and the media id, taken from the Media and the arguments, together with
    the two constant fields [h] (empty) and [ht] (the text 0). *)
Theorem trackProgress_request (media : IMedia)
    (currentTime elapsedTime callCount : number) :
  let r := trackProgress media currentTime elapsedTime callCount in
  method r = "POST" ∧
  headers r = [("Content-Type", "application/x-www-form-urlencoded")] ∧
  prop "cbcallcount" (body r) = Some (JNumber callCount) ∧
  prop "cbelapsed" (body r) = Some (JNumber elapsedTime) ∧
  prop "video_encode_id" (body r)
    = Some (JString (getEncodeId (getStream media))) ∧
  prop "req" (body r) = Some (JString "RpcApiVideo_VideoView") ∧
  prop "media_type" (body r) = Some (JString (getType (getStream media))) ∧
  prop "playhead" (body r) = Some (JNumber currentTime) ∧
  prop "media_id" (body r) = Some (JString (getId media)) ∧
  prop "h" (body r) = Some (JString EmptyString) ∧
  prop "ht" (body r) = Some (JString "0") ∧
  (body r).*1 ≡ₚ spec_report_fields ++ ["h"; "ht"].
Proof.
  cbn. repeat split.
  apply (bool_decide_unpack _). vm_compute. exact I.
Qed.

End ProgressReport.

(** ** Properties of the speed slider *)

Section SpeedSlider.

Import Slider.

(** C6, as stated, fails: a slider that took the speed 5 from the player,
    with bounds 0.5 and 4, returns normally from [setValue(5)] although 5
    is outside the bounds. *)
Lemma setValue_current_value_out_of_bounds :
  _value Sample.fast_slider = Some (Num 5) ∧
  getMinValue Sample.fast_slider = Num (1 # 2) ∧
  getMaxValue Sample.fast_slider = Num 4 ∧
  out_of_bounds Sample.fast_slider (Num 5) = true ∧
  setValue (Num 5) Sample.fast_slider = (Returned, Sample.fast_slider, []).
Proof. repeat split. Qed.

(** C6, amended: [setValue(v)] is a no-op (no value change, no speed-change
    call, no error) whenever [v] equals the current value, also when that
    value is outside the bounds; whenever [v] differs from the current
    value and is below the minimum or above the maximum, it throws a range
    error and leaves the component as it was. *)
Theorem setValue_noop_or_range_error (s : SpeedSliderComponent) (v : number) :
  (value_is s v = true → setValue v s = (Returned, s, [])) ∧
  (value_is s v = false → out_of_bounds s v = true →
   setValue v s = (Thrown (RangeError "Value is out of bounds."), s, [])).
Proof.
  unfold setValue. split.
  - intros ->. reflexivity.
  - intros -> ->. reflexivity.
Qed.

Lemma setValue_noop_or_range_error_witness :
  setValue (Num 5) Sample.fast_slider = (Returned, Sample.fast_slider, []) ∧
  setValue (Num 6) Sample.fast_slider
    = (Thrown (RangeError "Value is out of bounds."), Sample.fast_slider, []).
Proof.
  split.
  - apply (setValue_noop_or_range_error Sample.fast_slider (Num 5)).
    reflexivity.
  - apply (setValue_noop_or_range_error Sample.fast_slider (Num 6));
      reflexivity.
Defined.

End SpeedSlider.

(** ** Properties of the controller *)

Import Controller.

(** C10: a controller made without an options argument keeps its quality
    preference undefined, the default 360p being applied only when options
    are given, so the media resolution started when the player becomes ready
    is called with an undefined quality. *)
Theorem constructor_without_options_leaves_quality_undefined
    (url mediaId : string) (api : PlayerApi)
    (player : Player) (o : IPlayerControllerOptions) :
  _quality (constructor url mediaId None) = None ∧
  is_Some (_quality (constructor url mediaId (Some o))) ∧
  _quality
    (constructor url mediaId
       (Some {| opt_quality := None;
                opt_mediaFormat := opt_mediaFormat o;
                opt_mediaQuality := opt_mediaQuality o;
                opt_startTime := opt_startTime o;
                opt_sizeEnabled := opt_sizeEnabled o;
                opt_autoPlay := opt_autoPlay o;
                opt_affiliateId := opt_affiliateId o |}))
    = Some "360p" ∧
  trace (_onPlayerReady player (new_world (constructor url mediaId None) api))
    = [ Listen "fullscreenchange"; Listen "nextvideo";
        Call 0 (GetMedia mediaId (Quality None) url
                  {| affiliateId := None; autoPlay := None |}) ].
Proof.
  split; [reflexivity | split; [| split; reflexivity]].
  cbn. destruct (opt_quality o) as [q|]; cbn; [| by eexists].
  destruct (negb _); by eexists.
Qed.

Lemma make_config_set_tracking (lib : Library) (t : option VideoTracker)
    (c : PlayerController) (media : IMedia) :
  make_config lib (set_tracking t c) media = make_config lib c media.
Proof. reflexivity. Qed.

(** The effects [_loadMedia] adds when the player exists: the old tracker,
    if any, is disposed, a tracker for the Media is constructed, and the
    configuration goes to the player, loaded or cued. *)
Lemma loadMedia_effects (lib : Library) (media : IMedia) (w : World) :
  is_Some (_player (this w)) →
  let c := make_config lib (this w) media in
  let t := {| tracker_id := next_object w; tracker_media := media |} in
  let w' := _loadMedia lib media w in
  trace w' = (trace w
    ++ match _tracking (this w) with Some t0 => [Dispose t0] | None => [] end
    ++ [ NewVideoTracker t;
         if default false (autoplay c) then LoadVideoByConfig c
         else CueVideoByConfig c ])%list ∧
  _tracking (this w') = Some t ∧
  _url (this w') = _url (this w) ∧
  _changedMedia (this w') = _changedMedia (this w) ∧
  _player (this w') = _player (this w) ∧
  pending w' = pending w ∧
  next_object w' = S (next_object w).
Proof.
  intros [p Hp]. destruct w as [c api pend np no tr].
  destruct c as [u mid se st ap af qu mf mq pl cm tk].
  cbn in Hp. subst pl. unfold _loadMedia. cbn.
  destruct tk as [t0|]; cbn; rewrite ?make_config_set_tracking;
    match goal with
    | |- context [default false (autoplay ?c)] =>
        destruct (default false (autoplay c))
    end; cbn; rewrite <- ?app_assoc; cbn; repeat split.
Qed.

(** C7: the load step hands the player a configuration whose title is the
    series title, the text " Episode ", the episode number, an en dash
    between two spaces, and the episode title. *)
Theorem loadMedia_title (lib : Library) (media : IMedia) (w : World) :
  is_Some (_player (this w)) →
  ∃ c,
    (last (trace (_loadMedia lib media w)) = Some (LoadVideoByConfig c) ∨
     last (trace (_loadMedia lib media w)) = Some (CueVideoByConfig c)) ∧
    title c
      = Some (getSeriesTitle (getMetadata media) +:+ " Episode "
              +:+ getEpisodeNumber (getMetadata media) +:+ " – "
              +:+ getEpisodeTitle (getMetadata media)).
Proof.
  intros Hp. destruct (loadMedia_effects lib media w Hp) as (Htr & _).
  exists (make_config lib (this w) media). split.
  - rewrite Htr, !last_app. cbn.
    destruct (default false _); [left | right]; reflexivity.
  - unfold make_config.
    destruct (truthy _); [destruct (_ ≫= _) |]; reflexivity.
Qed.

Lemma loadMedia_title_witness :
  ∃ c,
    last (trace (_loadMedia Sample.lib0 Sample.media_ep2 Sample.immersed))
      = Some (LoadVideoByConfig c) ∧
    title c = Some "Series Episode 2 – Second".
Proof.
  destruct (loadMedia_title Sample.lib0 Sample.media_ep2 Sample.immersed)
    as (c & Hc & Ht).
  - exists PlayerRef. reflexivity.
  - exists c. split; [| exact Ht].
    destruct Hc as [Hc | Hc]; [exact Hc |].
    vm_compute in Hc. discriminate Hc.
Defined.

(** C8: when the Media names a next video but no descriptor can be parsed
    from it, the load step still goes through: the tracker for the Media is
    constructed, the configuration reaches the player, and it has no
    next-video section. *)
Theorem loadMedia_without_next_video_descriptor
    (lib : Library) (media : IMedia) (w : World) (next : string) :
  is_Some (_player (this w)) →
  getNextVideoUrl media = Some next →
  fromUrlUsingDocument lib next = None →
  ∃ c t,
    (last (trace (_loadMedia lib media w)) = Some (LoadVideoByConfig c) ∨
     last (trace (_loadMedia lib media w)) = Some (CueVideoByConfig c)) ∧
    nextVideo c = None ∧
    url c = Some (getFile (getStream media)) ∧
    _tracking (this (_loadMedia lib media w)) = Some t ∧
    tracker_media t = media.
Proof.
  intros Hp Hnext Hparse.
  destruct (loadMedia_effects lib media w Hp) as (Htr & Htk & _).
  exists (make_config lib (this w) media).
  eexists. split; [| split; [| split; [| split; [exact Htk | reflexivity]]]].
  - rewrite Htr, !last_app. cbn.
    destruct (default false _); [left | right]; reflexivity.
  - unfold make_config. rewrite Hnext. cbn. rewrite Hparse.
    destruct (negb _); reflexivity.
  - unfold make_config. rewrite Hnext. cbn. rewrite Hparse.
    destruct (negb _); reflexivity.
Qed.

Lemma loadMedia_without_next_video_descriptor_witness :
  ∃ c,
    last (trace (_loadMedia Sample.lib0 Sample.media_ep2 Sample.immersed))
      = Some (LoadVideoByConfig c) ∧
    nextVideo c = None.
Proof.
  destruct (loadMedia_without_next_video_descriptor
              Sample.lib0 Sample.media_ep2 Sample.immersed "/ep3")
    as (c & t & Hc & Hn & _).
  - exists PlayerRef. reflexivity.
  - reflexivity.
  - reflexivity.
  - exists c. split; [| exact Hn].
    destruct Hc as [Hc | Hc]; [exact Hc |].
    vm_compute in Hc. discriminate Hc.
Defined.





(** A fullscreen exit after a transition to /ep2, two and a half seconds
    into the episode, sends the page to /ep2 at second 2 and keeps the
    parameter the page already had. *)
Example fullscreen_exit_after_transition :
  last (trace (run Sample.lib0 Sample.immersed
                 [ NextVideoRequested Sample.to_ep2;
                   WidgetChanged Sample.windowed;
                   FullscreenChanged ]))
  = Some (SetLocationHref "http://www.crunchyroll.com/ep2?skip_wall=1&t=2").
Proof. vm_compute. reflexivity. Qed.

(** C3: [_onNextVideo] acts only while the player is in fullscreen.
    Otherwise nothing happens at all: the flag and the tracked URL stay as
    they were, no resolution is requested, the default action of the event
    is left alone.  In fullscreen the default action is suppressed, the
    tracked URL becomes the URL of the next video, [_changedMedia] becomes
    true, the active tracker, if any, is disposed, the player at once loads
    a configuration that holds the thumbnail of the next video and nothing
    else, and then the next Media is requested by URL with autoplay forced
    to true. *)
Theorem onNextVideo_only_in_fullscreen
    (detail : NextVideoDetail) (w : World) :
  let w' := _onNextVideo detail w in
  let request :=
    GetMediaByUrl (detail_url detail) (quality_arg (this w))
      {| affiliateId := _affiliateId (this w); autoPlay := Some true |} in
  if bool_decide (is_Some (_player (this w))) && isFullscreen (widget w)
  then
    trace w' =
      (trace w
       ++ [PreventDefault]
       ++ match _tracking (this w) with Some t => [Dispose t] | None => [] end
       ++ [ LoadVideoByConfig
              {| title := None; url := None; duration := None;
                 subtitles := None; startTime := None; autoplay := None;
                 thumbnailUrl := Some (detail_thumbnailUrl detail);
                 nextVideo := None |};
            Call (next_promise w) request ])%list ∧
    _url (this w') = detail_url detail ∧
    _changedMedia (this w') = true ∧
    _tracking (this w') = None ∧
    pending w' = <[next_promise w := request]> (pending w)
  else w' = w.
Proof.
  destruct w as [c api pend np no tr].
  destruct c as [u mid se st ap af qu mf mq pl cm tk].
  unfold _onNextVideo. cbn.
  destruct pl as [p|]; cbn; [| reflexivity].
  destruct (isFullscreen api); cbn; [| reflexivity].
  destruct tk as [t|]; cbn; rewrite <- ?app_assoc; repeat split.
Qed.

(** *** Invariants along a session *)

Lemma run_invariant (lib : Library) (P : World → Prop) :
  (∀ w op, P w → P (step lib w op)) →
  ∀ ops w, P w → P (run lib w ops).
Proof.
  intros Hstep ops. induction ops as [| op ops IH]; intros w Hw; cbn.
  - exact Hw.
  - apply IH, Hstep, Hw.
Qed.

Lemma run_app (lib : Library) (w : World) (ops1 ops2 : list Operation) :
  run lib w (ops1 ++ ops2) = run lib (run lib w ops1) ops2.
Proof. apply foldl_app. Qed.

(** How each operation moves [_changedMedia]. *)
Lemma step_changedMedia (lib : Library) (w : World) (op : Operation) :
  _changedMedia (this (step lib w op))
  = match op with
    | NextVideoRequested _ =>
        _changedMedia (this w)
        || (bool_decide (is_Some (_player (this w)))
            && isFullscreen (widget w))
    | _ => _changedMedia (this w)
    end.
Proof.
  destruct op as [player | detail | | large doc | p result | api]; cbn.
  - reflexivity.
  - unfold _onNextVideo.
    destruct (_player (this w)) as [pl|]; cbn; [| by rewrite orb_false_r].
    destruct (isFullscreen (widget w)); cbn; [| by rewrite orb_false_r].
    rewrite orb_true_r. unfold dispose_tracking. cbn.
    destruct (_tracking (this w)); reflexivity.
  - unfold _onFullscreenChange.
    destruct (_player (this w)); [| reflexivity].
    destruct (isFullscreen (widget w)); [reflexivity |].
    destruct (negb _); reflexivity.
  - unfold _onSizeChange.
    destruct (_player (this w)); [| reflexivity].
    destruct (main_content_children doc) as [[| n]|]; [| | reflexivity];
      (destruct (has_showmedia doc && has_showmedia_video doc);
       [| reflexivity]);
      destruct large, (getPreferredPlaybackState (widget w)); reflexivity.
  - unfold settle. destruct (pending w !! p); [| reflexivity].
    destruct result as [media|]; [| reflexivity].
    match goal with |- context [_loadMedia lib media ?w0] => set (w1 := w0) end.
    destruct (_player (this w1)) as [pl|] eqn:Hpl.
    + destruct (loadMedia_effects lib media w1) as (_ & _ & _ & Hcm & _).
      { rewrite Hpl. by eexists. }
      exact Hcm.
    + unfold _loadMedia. rewrite Hpl. reflexivity.
  - reflexivity.
Qed.

(** C4: [_changedMedia] is false in a new controller; a single operation
    turns it from false to true only if it is a next-video request arriving
    while the player exists and is in fullscreen; no operation turns it from
    true to false, so once true it stays true for the rest of the session. *)
Theorem changedMedia_monotone (lib : Library) (url mediaId : string)
    (options : option IPlayerControllerOptions) (api : PlayerApi) :
  let w0 := new_world (constructor url mediaId options) api in
  _changedMedia (this w0) = false ∧
  (∀ w op,
     _changedMedia (this w) = false →
     _changedMedia (this (step lib w op)) = true →
     ∃ detail,
       op = NextVideoRequested detail ∧
       is_Some (_player (this w)) ∧ isFullscreen (widget w) = true) ∧
  (∀ w op,
     _changedMedia (this w) = true →
     _changedMedia (this (step lib w op)) = true) ∧
  (∀ ops ops',
     _changedMedia (this (run lib w0 ops)) = true →
     _changedMedia (this (run lib w0 (ops ++ ops'))) = true).
Proof.
  assert (Hkeep : ∀ w op,
            _changedMedia (this w) = true →
            _changedMedia (this (step lib w op)) = true).
  { intros w op Hw. rewrite step_changedMedia, Hw. by destruct op. }
  split; [by destruct options |]. split; [| split; [exact Hkeep |]].
  - intros w op Hw Hw'. rewrite step_changedMedia, Hw in Hw'.
    destruct op as [| detail | | | |]; try congruence.
    exists detail. cbn in Hw'.
    apply andb_true_iff in Hw' as [Hp Hf].
    apply bool_decide_eq_true in Hp. done.
  - intros ops ops' Hops. rewrite run_app.
    apply (run_invariant lib (λ w, _changedMedia (this w) = true));
      [exact Hkeep | exact Hops].
Qed.

Lemma changedMedia_monotone_witness :
  _changedMedia
    (this (run Sample.lib0 Sample.start
             ([ PlayerReady PlayerRef; WidgetChanged Sample.fullscreen;
                NextVideoRequested Sample.to_ep2 ]
              ++ [ WidgetChanged Sample.windowed; FullscreenChanged;
                   Settled 1 (Some Sample.media_ep2);
                   SizeChanged true
                     {| has_showmedia := true; has_showmedia_video := true;
                        main_content_children := Some 2%nat |} ])))
  = true.
Proof.
  destruct (changedMedia_monotone Sample.lib0 "/ep1" "M1" None Sample.windowed)
    as (_ & _ & _ & Hrun).
  apply Hrun. reflexivity.
Defined.

(** *** Trackers *)

Lemma active_trackers_app (tr es : list Effect) :
  active_trackers (tr ++ es) = foldl active_after (active_trackers tr) es.
Proof. apply foldl_app. Qed.

Lemma exclusive_app (active : list nat) (tr es : list Effect) :
  exclusive active (tr ++ es)
  ↔ exclusive active tr ∧ exclusive (foldl active_after active tr) es.
Proof.
  revert active. induction tr as [| e tr IH]; intros active; cbn.
  - tauto.
  - rewrite IH. tauto.
Qed.

Lemma tracked_emit (e : Effect) (w : World) :
  neutral e = true → tracked w → tracked (emit e w).
Proof.
  intros He [Hact Hex]. split; cbn.
  - rewrite active_trackers_app, Hact. by destruct e.
  - apply exclusive_app. split; [exact Hex |]. by destruct e.
Qed.

Lemma tracked_emits (es : list Effect) (w : World) :
  forallb neutral es = true → tracked w → tracked (emits es w).
Proof.
  revert w. induction es as [| e es IH]; intros w Hes Hw; cbn in *.
  - exact Hw.
  - apply andb_true_iff in Hes as [He Hes].
    apply IH; [exact Hes |]. by apply tracked_emit.
Qed.

Lemma tracked_await (r : Request) (w : World) :
  tracked w → tracked (await r w).
Proof. apply (tracked_emit (Call (next_promise w) r) w). reflexivity. Qed.

Lemma tracked_update (f : PlayerController → PlayerController) (w : World) :
  (∀ c, _tracking (f c) = _tracking c) → tracked w → tracked (update f w).
Proof.
  intros Hf [Hact Hex]. split; [| exact Hex].
  cbn. unfold tracking_ids. rewrite Hf. exact Hact.
Qed.

Lemma tracked_dispose_tracking (w : World) :
  tracked w →
  tracked (dispose_tracking w) ∧ _tracking (this (dispose_tracking w)) = None.
Proof.
  intros [Hact Hex]. unfold dispose_tracking, tracking_ids in *.
  destruct (_tracking (this w)) as [t|] eqn:Ht.
  2: { split; [split; [unfold tracking_ids; by rewrite Ht | exact Hex]
              | exact Ht]. }
  split; [| reflexivity]. split; cbn.
  - rewrite active_trackers_app, Hact. cbn.
    by rewrite decide_False by (intros H; by apply H).
  - apply exclusive_app. split; [exact Hex |]. cbn. done.
Qed.

Lemma tracked_new_tracking (media : IMedia) (w : World) :
  tracked w → _tracking (this w) = None → tracked (new_tracking media w).
Proof.
  intros [Hact Hex] Hnone. unfold tracking_ids in Hact.
  rewrite Hnone in Hact. split; cbn.
  - rewrite active_trackers_app, Hact. reflexivity.
  - apply exclusive_app. split; [exact Hex |]. split; [exact Hact | exact I].
Qed.

Lemma tracked_loadMedia (lib : Library) (media : IMedia) (w : World) :
  tracked w → tracked (_loadMedia lib media w).
Proof.
  intros Hw. unfold _loadMedia.
  destruct (_player (this w)); [| exact Hw].
  destruct (tracked_dispose_tracking w Hw) as [Hd Hnone].
  cbv zeta. destruct (default false _);
    (apply tracked_emit; [reflexivity |]); by apply tracked_new_tracking.
Qed.

Lemma tracked_step (lib : Library) (w : World) (op : Operation) :
  tracked w → tracked (step lib w op).
Proof.
  intros Hw.
  destruct op as [player | detail | | large doc | p result | api]; cbn.
  - unfold _onPlayerReady. cbv zeta.
    apply tracked_await.
    do 2 (apply tracked_emit; [reflexivity |]).
    by apply tracked_update.
  - unfold _onNextVideo.
    destruct (_player (this w)); [| exact Hw].
    destruct (negb _); [exact Hw |]. cbv zeta.
    apply tracked_await, tracked_emit; [reflexivity |].
    apply tracked_dispose_tracking.
    do 2 (apply tracked_update; [done |]).
    by apply tracked_emit.
  - unfold _onFullscreenChange.
    destruct (_player (this w)); [| exact Hw].
    destruct (isFullscreen _); [exact Hw |].
    destruct (negb _); [exact Hw |].
    by apply tracked_emit.
  - unfold _onSizeChange.
    destruct (_player (this w)); [| exact Hw].
    destruct (main_content_children doc) as [children|]; [| exact Hw].
    destruct (_ && _); [| exact Hw].
    assert (∀ w1, tracked w1 →
              tracked (if match getPreferredPlaybackState (widget w) with
                          | PLAYING => true
                          | NOT_PLAYING => false
                          end
                       then emit (PlayVideo true) w1 else w1)) as Hplay.
    { intros w1 Hw1. destruct (getPreferredPlaybackState _);
        [by apply tracked_emit | exact Hw1]. }
    apply Hplay. destruct large; apply tracked_emits; try exact Hw;
      by destruct children.
  - unfold settle. destruct (pending w !! p); [| exact Hw].
    destruct result as [media|]; [| exact Hw].
    apply tracked_loadMedia. exact Hw.
  - exact Hw.
Qed.

Lemma tracked_run (lib : Library) (c : PlayerController) (api : PlayerApi)
    (ops : list Operation) :
  _tracking c = None → tracked (run lib (new_world c api) ops).
Proof.
  intros Hc. apply run_invariant; [apply tracked_step |].
  split; cbn; [| exact I]. unfold tracking_ids. by rewrite Hc.
Qed.

(** C5: at any point of a session the trackers constructed and not yet
    disposed are exactly the one the controller holds, so there is at most
    one; every tracker was constructed at a moment when none was active; and
    a load step first disposes the tracker it finds and only then constructs
    the next one, which is then the only active tracker. *)
Theorem one_tracker_at_a_time (lib : Library) (url mediaId : string)
    (options : option IPlayerControllerOptions) (api : PlayerApi)
    (ops : list Operation) :
  let w := run lib (new_world (constructor url mediaId options) api) ops in
  active_trackers (trace w) = tracking_ids (this w) ∧
  (length (active_trackers (trace w)) ≤ 1)%nat ∧
  exclusive [] (trace w) ∧
  ∀ media,
    is_Some (_player (this w)) →
    ∃ t handed,
      trace (_loadMedia lib media w)
      = (trace w
         ++ match _tracking (this w) with
            | Some t0 => [Dispose t0]
            | None => []
            end
         ++ [NewVideoTracker t; handed])%list ∧
      tracker_media t = media ∧
      active_trackers (trace (_loadMedia lib media w)) = [tracker_id t].
Proof.
  intros w.
  assert (Hw : tracked w).
  { apply tracked_run. by destruct options. }
  destruct Hw as [Hact Hex].
  split; [exact Hact |]. split; [| split; [exact Hex |]].
  - rewrite Hact. unfold tracking_ids. destruct (_tracking _); cbn; lia.
  - intros media Hp.
    destruct (loadMedia_effects lib media w Hp) as (Htr & Htk & _).
    eexists. eexists. split; [exact Htr |]. split; [reflexivity |].
    destruct (tracked_loadMedia lib media w (conj Hact Hex)) as [Hact' _].
    rewrite Hact'. unfold tracking_ids. rewrite Htk. reflexivity.
Qed.

Lemma one_tracker_at_a_time_witness :
  let w :=
    run Sample.lib0 Sample.start
      [ PlayerReady PlayerRef; Settled 0 (Some Sample.media_ep2) ] in
  active_trackers (trace w) = [0%nat] ∧
  ∃ t,
    active_trackers (trace (_loadMedia Sample.lib0 Sample.media_ep2 w))
    = [tracker_id t] ∧
    tracker_media t = Sample.media_ep2.
Proof.
  destruct (one_tracker_at_a_time Sample.lib0 "/ep1" "M1" None Sample.windowed
              [ PlayerReady PlayerRef; Settled 0 (Some Sample.media_ep2) ])
    as (Hact & _ & _ & Hload).
  split; [exact Hact |].
  destruct (Hload Sample.media_ep2) as (t & handed & _ & Hmedia & Hact').
  - exists PlayerRef. reflexivity.
  - exists t. split; [exact Hact' | exact Hmedia].
Defined.

(** *** Resolutions that settle late *)

Lemma ready_step (lib : Library) (w : World) (op : Operation) :
  ready w → ready (step lib w op).
Proof.
  intros Hw. destruct (_player (this w)) as [pl|] eqn:Hpl.
  - left. destruct op as [player | detail | | large doc | p result | api]; cbn.
    + by eexists.
    + unfold _onNextVideo. rewrite Hpl.
      destruct (negb _); [by rewrite Hpl |]. cbn.
      unfold dispose_tracking. cbn.
      destruct (_tracking (this w)); cbn; by rewrite Hpl.
    + unfold _onFullscreenChange. rewrite Hpl.
      destruct (isFullscreen _); [by rewrite Hpl |].
      destruct (negb _); cbn; by rewrite Hpl.
    + unfold _onSizeChange. rewrite Hpl.
      destruct (main_content_children doc) as [[| n]|]; [| | by rewrite Hpl];
        (destruct (_ && _); [| by rewrite Hpl]);
        destruct large, (getPreferredPlaybackState _); cbn; by rewrite Hpl.
    + unfold settle. destruct (pending w !! p); [| by rewrite Hpl].
      destruct result as [media|]; [| cbn; by rewrite Hpl].
      match goal with |- context [_loadMedia lib media ?w0] => set (w1 := w0) end.
      destruct (loadMedia_effects lib media w1) as (_ & _ & _ & _ & Hp' & _).
      { subst w1. cbn. by rewrite Hpl. }
      rewrite Hp'. subst w1. cbn. by rewrite Hpl.
    + by rewrite Hpl.
  - destruct Hw as [[pl Hw] | Hw]; [congruence |].
    destruct op as [player | detail | | large doc | p result | api]; cbn.
    + left. by eexists.
    + right. unfold _onNextVideo. by rewrite Hpl.
    + right. unfold _onFullscreenChange. by rewrite Hpl.
    + right. unfold _onSizeChange. by rewrite Hpl.
    + right. unfold settle. by rewrite Hw, lookup_empty.
    + by right.
Qed.

(** C1, as stated, fails.  In fullscreen the player asks for /ep2 and then,
    before that resolution settles, for /ep3.  The resolution requested for
    /ep2 is then unsettled under promise 1 and the tracked URL is /ep3; when
    it settles, its Media is loaded onto the player all the same. *)
Lemma stale_resolution_is_loaded :
  let w :=
    run Sample.lib0 Sample.immersed
      [ NextVideoRequested Sample.to_ep2; NextVideoRequested Sample.to_ep3 ] in
  let w' := step Sample.lib0 w (Settled 1 (Some Sample.media_ep2)) in
  origin <$> pending w !! 1%nat = Some "/ep2" ∧
  _url (this w) = "/ep3" ∧
  origin <$> pending w !! 2%nat = Some "/ep3" ∧
  (∃ c,
     last (trace w') = Some (LoadVideoByConfig c) ∧
     title c = Some "Series Episode 2 – Second" ∧
     url c = Some "https://cdn.example/ep2.m3u8") ∧
  tracker_media <$> _tracking (this w') = Some Sample.media_ep2.
Proof.
  vm_compute. repeat split. eexists. repeat split.
Qed.

(** C1, amended: the controller compares no URLs when a resolution settles.
    At any point of a session, every unsettled resolution that settles with
    a Media is passed to the load step, whether or not the URL it was
    requested for is still the tracked one: the tracker in place is
    disposed, a tracker for that Media is constructed, and the player gets
    the configuration of that Media.  The tracked URL is left as it is. *)
Theorem settled_resolution_is_loaded (lib : Library) (pageUrl mediaId : string)
    (options : option IPlayerControllerOptions) (api : PlayerApi)
    (ops : list Operation) (p : nat) (r : Request) (media : IMedia) :
  let w := run lib (new_world (constructor pageUrl mediaId options) api) ops in
  let w' := step lib w (Settled p (Some media)) in
  let c := make_config lib (this w) media in
  let t := {| tracker_id := next_object w; tracker_media := media |} in
  pending w !! p = Some r →
  trace w'
  = (trace w
     ++ match _tracking (this w) with Some t0 => [Dispose t0] | None => [] end
     ++ [ NewVideoTracker t;
          if default false (autoplay c) then LoadVideoByConfig c
          else CueVideoByConfig c ])%list ∧
  _tracking (this w') = Some t ∧
  _url (this w') = _url (this w) ∧
  pending w' = delete p (pending w).
Proof.
  intros w w' c t Hpending.
  assert (Hready : ready w).
  { apply run_invariant; [apply ready_step | by right]. }
  destruct Hready as [Hp | Hempty];
    [| by rewrite Hempty, lookup_empty in Hpending].
  subst w'. cbn. unfold settle. rewrite Hpending.
  match goal with |- context [_loadMedia lib media ?w0] => set (w1 := w0) end.
  destruct (loadMedia_effects lib media w1 Hp)
    as (Htr & Htk & Hurl & _ & _ & Hpend & _).
  repeat split; assumption.
Qed.

Lemma settled_resolution_is_loaded_witness :
  let w :=
    run Sample.lib0 Sample.start
      [ PlayerReady PlayerRef; WidgetChanged Sample.fullscreen;
        NextVideoRequested Sample.to_ep2; NextVideoRequested Sample.to_ep3 ] in
  _url (this w) = "/ep3" ∧
  tracker_media
    <$> _tracking (this (step Sample.lib0 w (Settled 1 (Some Sample.media_ep2))))
  = Some Sample.media_ep2.
Proof.
  split; [reflexivity |].
  destruct (settled_resolution_is_loaded Sample.lib0 "/ep1" "M1" None
              Sample.windowed
              [ PlayerReady PlayerRef; WidgetChanged Sample.fullscreen;
                NextVideoRequested Sample.to_ep2;
                NextVideoRequested Sample.to_ep3 ]
              1 (GetMediaByUrl "/ep2" (Quality None)
                   {| affiliateId := None; autoPlay := Some true |})
              Sample.media_ep2)
    as (_ & Htk & _).
  - reflexivity.
  - cbv zeta. unfold Sample.start. rewrite Htk. reflexivity.
Defined.

(** ** Properties of [parseRpc] *)

Section RpcProperties.

Import Rpc.

Lemma string_length_app (a b : string) :
  String.length (a +:+ b) = (String.length a + String.length b)%nat.
Proof. induction a as [| c a IH]; simpl; [reflexivity | by f_equal]. Qed.

Lemma substring_skip (a b : string) (n : nat) :
  String.substring (String.length a) n (a +:+ b) = String.substring 0 n b.
Proof. induction a as [| c a IH]; simpl; [reflexivity | exact IH]. Qed.

Lemma substring_prefix (p e : string) :
  String.substring 0 (String.length p) (p +:+ e) = p.
Proof.
  induction p as [| c p IH]; simpl; [by destruct e | by f_equal].
Qed.

(** X1: a payload wrapped in the two secure tags comes back as the parse
    of the payload itself, provided the wrapped text is no JSON as it
    stands. *)
Theorem parseRpc_strips_secure_tags (Json : Type)
    (JSON_parse : string → option Json) (payload : string) :
  JSON_parse (startTag +:+ payload +:+ endTag) = None →
  parseRpc Json JSON_parse (startTag +:+ payload +:+ endTag)
  = JSON_parse payload.
Proof.
  intros Hfail. unfold parseRpc. rewrite Hfail. f_equal.
  unfold js_substring, clamp_index.
  rewrite !string_length_app. cbn [String.length startTag endTag].
  replace (Nat.min _ _) with (String.length startTag) by (cbn; lia).
  replace (Nat.max _ _ - _)%nat with (String.length payload) by (cbn; lia).
  rewrite substring_skip. apply substring_prefix.
Qed.

Lemma parseRpc_strips_secure_tags_witness :
  parseRpc string Scenario.braces "/*-secure-{}*/" = Some "{}".
Proof.
  apply (parseRpc_strips_secure_tags string Scenario.braces "{}").
  reflexivity.
Defined.

(** X2: an input of two to ten characters that is no JSON is not stripped
    of ten and two characters: [substring] swaps its indices, and what gets
    parsed is the last two characters of the input. *)
Theorem parseRpc_short_input (Json : Type)
    (JSON_parse : string → option Json) (json : string) :
  JSON_parse json = None →
  (2 ≤ String.length json ≤ 10)%nat →
  parseRpc Json JSON_parse json
  = JSON_parse (String.substring (String.length json - 2) 2 json).
Proof.
  intros Hfail Hlen. unfold parseRpc. rewrite Hfail. f_equal.
  unfold js_substring, clamp_index. cbn [String.length startTag endTag].
  replace (Nat.min _ _) with (String.length json - 2)%nat by lia.
  replace (Nat.max _ _ - _)%nat with 2%nat by lia.
  reflexivity.
Qed.

Lemma parseRpc_short_input_witness :
  parseRpc string Scenario.twelve "ab12" = Some "12".
Proof.
  apply (parseRpc_short_input string Scenario.twelve "ab12").
  - reflexivity.
  - cbn. lia.
Defined.

End RpcProperties.

(** ** Properties of the page around the controller *)

Section PageProperties.

Import Stdlib.Strings.Ascii Stdlib.Strings.String.
Import Page.

Lemma span_letters_split (cs ls rest : list ascii) :
  span_letters cs = (ls, rest) →
  cs = (ls ++ rest)%list ∧ letters ls ∧ stops rest.
Proof.
  revert ls rest. induction cs as [| c cs IH]; intros ls rest H;
    cbn [span_letters] in H.
  - injection H as <- <-. repeat split. constructor.
  - destruct (is_letter c) eqn:Hc.
    + destruct (span_letters cs) as [ls' rest'].
      injection H as <- <-.
      destruct (IH ls' rest' eq_refl) as (-> & Hls & Hrest).
      repeat split; [by constructor | exact Hrest].
    + injection H as <- <-. repeat split; [constructor | exact Hc].
Qed.

Lemma span_letters_app (ls rest : list ascii) :
  letters ls → stops rest → span_letters (ls ++ rest) = (ls, rest).
Proof.
  intros Hls Hrest. induction Hls as [| c ls Hc _ IH]; cbn [span_letters app].
  - destruct rest as [| c rest]; [reflexivity |].
    cbn [stops] in Hrest. cbn [span_letters]. by rewrite Hrest.
  - by rewrite Hc, IH.
Qed.

Lemma letters_rev (cs : list ascii) : letters cs → letters (rev cs).
Proof. apply Forall_rev. Qed.

(** The matcher finds exactly the strings the pattern describes. *)
Lemma match_thumbnail_iff (cs before ext : list ascii) :
  match_thumbnail cs = Some (before, ext) ↔
  ∃ name,
    cs = (before ++ "_"%char :: name ++ "."%char :: ext)%list ∧
    name ≠ [] ∧ ext ≠ [] ∧ letters name ∧ letters ext.
Proof.
  unfold match_thumbnail. split.
  - destruct (span_letters (rev cs)) as [e r1] eqn:He.
    destruct e as [| e0 e]; [discriminate |].
    destruct r1 as [| d r2]; [discriminate |].
    destruct (ascii_dec d "."%char) as [-> | Hd].
    2: { destruct d as [[] [] [] [] [] [] [] []]; try discriminate.
         by destruct Hd. }
    destruct (span_letters r2) as [n r3] eqn:Hn.
    destruct n as [| n0 n]; [by destruct r3 as [| [[] [] [] [] [] [] [] []] ?] |].
    destruct r3 as [| u r4]; [discriminate |].
    destruct (ascii_dec u "_"%char) as [-> | Hu].
    2: { destruct u as [[] [] [] [] [] [] [] []]; try discriminate.
         by destruct Hu. }
    intros [= <- <-].
    apply span_letters_split in He as (He & Hle & _).
    apply span_letters_split in Hn as (Hn & Hln & _).
    exists (rev (n0 :: n)). repeat split.
    + rewrite <- (rev_involutive cs), He, Hn.
      rewrite !rev_app_distr. cbn [rev]. rewrite !rev_app_distr. cbn [rev].
      rewrite <- !app_assoc. reflexivity.
    + cbn. intros H. by apply app_eq_nil in H as [_ H].
    + cbn. intros H. by apply app_eq_nil in H as [_ H].
    + exact (letters_rev (n0 :: n) Hln).
    + exact (letters_rev (e0 :: e) Hle).
  - intros (name & -> & Hname & Hext & Hln & Hle).
    rewrite rev_app_distr. cbn [rev]. rewrite rev_app_distr. cbn [rev].
    rewrite <- !app_assoc. cbn [app].
    rewrite (span_letters_app (rev ext)); [| by apply letters_rev | reflexivity].
    destruct (rev ext) as [| e0 e] eqn:He.
    { destruct Hext. by rewrite <- (rev_involutive ext), He. }
    rewrite (span_letters_app (rev name)); [| by apply letters_rev | reflexivity].
    destruct (rev name) as [| n0 n] eqn:Hn.
    { destruct Hname. by rewrite <- (rev_involutive name), Hn. }
    rewrite <- He, !rev_involutive. reflexivity.
Qed.

(** X3: a thumbnail address that ends in an underscore, letters, a dot and
    letters has the letters after the underscore replaced by the word full,
    the extension kept; and an address is only ever changed in that way, so
    any other address comes back as it is. *)
Theorem replace_with_full_spec :
  (∀ before name ext,
     name ≠ [] → ext ≠ [] → letters name → letters ext →
     replace_with_full (before ++ "_"%char :: name ++ "."%char :: ext)
     = (before ++ list_ascii_of_string "_full." ++ ext)%list) ∧
  (∀ url,
     replace_with_full url = url ∨
     ∃ before name ext,
       url = (before ++ "_"%char :: name ++ "."%char :: ext)%list ∧
       name ≠ [] ∧ ext ≠ [] ∧ letters name ∧ letters ext).
Proof.
  split.
  - intros before name ext Hname Hext Hln Hle. unfold replace_with_full.
    assert (match_thumbnail (before ++ "_"%char :: name ++ "."%char :: ext)
            = Some (before, ext)) as ->; [| reflexivity].
    apply match_thumbnail_iff. by exists name.
  - intros url. unfold replace_with_full.
    destruct (match_thumbnail url) as [[before ext]|] eqn:Hm; [| by left].
    right. apply match_thumbnail_iff in Hm as (name & Hm).
    by exists before, name, ext.
Qed.

Lemma replace_with_full_spec_witness :
  replace_with_full (list_ascii_of_string "/img/ep2_thumb.jpg")
  = list_ascii_of_string "/img/ep2_full.jpg".
Proof.
  destruct replace_with_full_spec as [Hrewrite _].
  apply (Hrewrite (list_ascii_of_string "/img/ep2")
           (list_ascii_of_string "thumb") (list_ascii_of_string "jpg")).
  - discriminate.
  - discriminate.
  - repeat constructor.
  - repeat constructor.
Defined.

(** X4: rewriting a thumbnail address twice is the same as rewriting it
    once. *)
Theorem replace_with_full_idempotent (url : list ascii) :
  replace_with_full (replace_with_full url) = replace_with_full url.
Proof.
  unfold replace_with_full at 2 3.
  destruct (match_thumbnail url) as [[before ext]|] eqn:Hm.
  - apply match_thumbnail_iff in Hm as (name & _ & _ & Hext & _ & Hle).
    change (before ++ list_ascii_of_string "_full." ++ ext)%list
      with (before ++ "_"%char :: list_ascii_of_string "full"
                   ++ "."%char :: ext)%list.
    unfold replace_with_full.
    assert (match_thumbnail
              (before ++ "_"%char :: list_ascii_of_string "full"
                      ++ "."%char :: ext)
            = Some (before, ext)) as ->; [| reflexivity].
    apply match_thumbnail_iff. exists (list_ascii_of_string "full").
    repeat split; [discriminate | exact Hext | repeat constructor | exact Hle].
  - unfold replace_with_full. by rewrite Hm.
Qed.

Lemma replace_with_full_nonempty (url : list ascii) :
  url ≠ [] → replace_with_full url ≠ [].
Proof.
  intros Hurl. unfold replace_with_full.
  destruct (match_thumbnail url) as [[before ext]|]; [| exact Hurl].
  intros H. apply app_eq_nil in H as [_ H]. discriminate H.
Qed.

(** X5: the configuration the widget is mounted with has a thumbnail
    exactly when the page has an image for the media id whose [src] is not
    empty; the thumbnail is that [src] rewritten, and the configuration
    holds nothing else. *)
Theorem getDefaultConfig_thumbnail (mug_src : string → option (option string))
    (c : PlayerController) :
  _getDefaultConfig mug_src c
  = match mug_src (_mediaId c) with
    | Some (Some src) =>
        if String.eqb src EmptyString then empty_config
        else thumbnail_config
               (string_of_list_ascii
                  (replace_with_full (list_ascii_of_string src)))
    | _ => empty_config
    end.
Proof.
  unfold _getDefaultConfig, _getThumbnailByMediaId.
  destruct (mug_src (_mediaId c)) as [[src|]|]; cbn; [| reflexivity..].
  destruct (String.eqb src EmptyString) eqn:Hsrc; cbn; [reflexivity |].
  match goal with |- context [String.eqb ?t EmptyString] =>
    destruct (String.eqb_spec t EmptyString) as [Ht | Ht] end;
    [| reflexivity].
  exfalso. apply String.eqb_neq in Hsrc.
  apply (replace_with_full_nonempty (list_ascii_of_string src)).
  - intros H. apply Hsrc.
    by rewrite <- (string_of_list_ascii_of_string src), H.
  - by rewrite <- (list_ascii_of_string_of_list_ascii (replace_with_full _)), Ht.
Qed.

Lemma element_id_app (id0 : string) (tr es : list Effect) :
  element_id id0 (tr ++ es) = element_id (element_id id0 tr) es.
Proof. apply foldl_app. Qed.

(** X6: after a size toggle that goes through, the [large] getter answers
    what was asked for; a toggle refused for want of the player or of a
    node leaves the answer as it was. *)
Theorem large_after_onSizeChange (id0 : string) (wide : bool)
    (doc : Document) (w : World) :
  large id0 (_onSizeChange wide doc w)
  = if can_resize doc w then wide else large id0 w.
Proof.
  destruct w as [c api pend np no tr].
  destruct c as [u mid se st ap af qu mf mq pl cm tk].
  destruct doc as [sm smv children].
  unfold large, can_resize, _onSizeChange. cbn.
  destruct pl as [p|]; cbn; [| reflexivity].
  destruct children as [n|]; cbn; [| reflexivity].
  destruct sm; cbn; [| reflexivity].
  destruct smv; cbn; [| reflexivity].
  destruct wide, (getPreferredPlaybackState api), n; cbn;
    rewrite <- ?app_assoc, element_id_app; reflexivity.
Qed.

(** X7: a size toggle touches nothing but the layout.  The controller, the
    unsettled resolutions and the widget are as before; when the toggle goes
    through, six layout changes are made, followed by one [playVideo(true)]
    exactly when the player prefers to be playing; otherwise nothing is
    done. *)
Theorem onSizeChange_is_local (wide : bool) (doc : Document) (w : World) :
  let w' := _onSizeChange wide doc w in
  this w' = this w ∧ pending w' = pending w ∧ widget w' = widget w ∧
  next_promise w' = next_promise w ∧
  if can_resize doc w then
    ∃ layout,
      trace w'
      = (trace w ++ layout
         ++ match getPreferredPlaybackState (widget w) with
            | PLAYING => [PlayVideo true]
            | NOT_PLAYING => []
            end)%list ∧
      forallb is_layout layout = true ∧ List.length layout = 6%nat
  else trace w' = trace w.
Proof.
  destruct w as [c api pend np no tr].
  destruct c as [u mid se st ap af qu mf mq pl cm tk].
  destruct doc as [sm smv children].
  unfold can_resize, _onSizeChange. cbn.
  do 4 (split; [by repeat case_match |]).
  destruct pl as [p|]; cbn; [| reflexivity].
  destruct children as [n|]; cbn; [| reflexivity].
  destruct sm; cbn; [| reflexivity].
  destruct smv; cbn; [| reflexivity].
  destruct wide, (getPreferredPlaybackState api), n; cbn;
    rewrite <- ?app_assoc; cbn [app];
    match goal with
    | |- ∃ layout, (tr ++ ?es)%list = _ ∧ _ => exists (take 6 es)
    end; cbn; (split; [reflexivity | split; reflexivity]).
Qed.

End PageProperties.

(** ** Properties of whole sessions *)

Section SessionProperties.

Import Session.

Lemma new_effects_app (lib : Library) (w : World) (op : Operation)
    (es : list Effect) :
  trace (step lib w op) = (trace w ++ es)%list → new_effects lib w op = es.
Proof. intros H. unfold new_effects. rewrite H. apply drop_app_length. Qed.

(** The effects each operation adds. *)
Lemma new_effects_cases (lib : Library) (w : World) (op : Operation) :
  let disposal :=
    match _tracking (this w) with Some t => [Dispose t] | None => [] end in
  match op with
  | PlayerReady player =>
      new_effects lib w op
      = [ Listen "fullscreenchange"; Listen "nextvideo";
          Call (next_promise w)
            (GetMedia (_mediaId (this w)) (quality_arg (this w))
               (_url (this w))
               {| affiliateId := _affiliateId (this w);
                  autoPlay := _autoPlay (this w) |}) ]
  | NextVideoRequested detail =>
      new_effects lib w op
      = if bool_decide (is_Some (_player (this w))) && isFullscreen (widget w)
        then
          ([PreventDefault] ++ disposal
           ++ [ LoadVideoByConfig
                  (thumbnail_config (detail_thumbnailUrl detail));
                Call (next_promise w)
                  (GetMediaByUrl (detail_url detail) (quality_arg (this w))
                     {| affiliateId := _affiliateId (this w);
                        autoPlay := Some true |}) ])%list
        else []
  | FullscreenChanged =>
      ∃ hrefs, new_effects lib w op = SetLocationHref <$> hrefs
  | SizeChanged wide doc =>
      Forall (λ e, is_true (Page.is_layout e) ∨ e = PlayVideo true)
        (new_effects lib w op)
  | Settled p result =>
      new_effects lib w op
      = match pending w !! p, result, _player (this w) with
        | Some _, Some media, Some _ =>
            let c := make_config lib (this w) media in
            (disposal
             ++ [ NewVideoTracker
                    {| tracker_id := next_object w; tracker_media := media |};
                  if default false (autoplay c) then LoadVideoByConfig c
                  else CueVideoByConfig c ])%list
        | _, _, _ => []
        end
  | WidgetChanged api => new_effects lib w op = []
  end.
Proof.
  intros disposal.
  destruct op as [player | detail | | wide doc | p result | api].
  - apply new_effects_app. cbn. by rewrite <- !app_assoc.
  - apply new_effects_app. subst disposal.
    destruct w as [c api pend np no tr].
    destruct c as [u mid se st ap af qu mf mq pl cm tk].
    cbn. unfold _onNextVideo. cbn.
    destruct pl as [pl|]; cbn; [| by rewrite app_nil_r].
    destruct (isFullscreen api); cbn; [| by rewrite app_nil_r].
    destruct tk as [t|]; cbn; by rewrite <- ?app_assoc.
  - unfold new_effects. cbn. unfold _onFullscreenChange.
    destruct (_player (this w));
      [| exists []; by rewrite drop_all].
    destruct (isFullscreen _); [exists []; by rewrite drop_all |].
    destruct (negb _); [exists []; by rewrite drop_all |].
    eexists [_]. cbn. by rewrite drop_app_length.
  - unfold new_effects.
    destruct w as [c api pend np no tr].
    destruct c as [u mid se st ap af qu mf mq pl cm tk].
    destruct doc as [sm smv children].
    cbn. unfold _onSizeChange. cbn.
    destruct pl as [pl|]; cbn; [| by rewrite drop_all].
    destruct children as [n|]; cbn; [| by rewrite drop_all].
    destruct sm; cbn; [| by rewrite drop_all].
    destruct smv; cbn; [| by rewrite drop_all].
    destruct wide, (getPreferredPlaybackState api), n; cbn;
      rewrite <- ?app_assoc, drop_app_length; cbn;
      repeat (constructor; [first [by left | by right] |]); constructor.
  - apply new_effects_app. subst disposal. cbn. unfold settle.
    destruct (pending w !! p); [| by rewrite app_nil_r].
    destruct result as [media|]; [| cbn; by rewrite app_nil_r].
    match goal with |- context [_loadMedia lib media ?w0] => set (w1 := w0) end.
    destruct (_player (this w)) as [pl|] eqn:Hpl.
    + destruct (loadMedia_effects lib media w1) as (Htr & _).
      { subst w1. cbn. rewrite Hpl. by eexists. }
      exact Htr.
    + unfold _loadMedia. subst w1. cbn. rewrite Hpl. cbn.
      by rewrite app_nil_r.
  - apply new_effects_app. cbn. by rewrite app_nil_r.
Qed.

Lemma trace_step (lib : Library) (w : World) (op : Operation) :
  trace (step lib w op) = (trace w ++ new_effects lib w op)%list.
Proof.
  assert (∃ es, trace (step lib w op) = (trace w ++ es)%list) as [es Hes].
  { pose proof (new_effects_cases lib w op) as H. cbv zeta in H.
    destruct op as [player | detail | | wide doc | p result | api].
    - cbn. eexists. by rewrite <- !app_assoc.
    - destruct w as [c api pend np no tr].
      destruct c as [u mid se st ap af qu mf mq pl cm tk].
      cbn. unfold _onNextVideo. cbn.
      destruct pl as [pl|]; cbn; [| exists []; by rewrite app_nil_r].
      destruct (isFullscreen api); cbn; [| exists []; by rewrite app_nil_r].
      destruct tk as [t|]; cbn; eexists; by rewrite <- ?app_assoc.
    - cbn. unfold _onFullscreenChange.
      destruct (_player (this w)); [| exists []; by rewrite app_nil_r].
      destruct (isFullscreen _); [exists []; by rewrite app_nil_r |].
      destruct (negb _); [exists []; by rewrite app_nil_r |].
      by eexists.
    - destruct w as [c api pend np no tr].
      destruct c as [u mid se st ap af qu mf mq pl cm tk].
      destruct doc as [sm smv children].
      cbn. unfold _onSizeChange. cbn.
      destruct pl as [pl|]; cbn; [| exists []; by rewrite app_nil_r].
      destruct children as [n|]; cbn; [| exists []; by rewrite app_nil_r].
      destruct sm; cbn; [| exists []; by rewrite app_nil_r].
      destruct smv; cbn; [| exists []; by rewrite app_nil_r].
      destruct wide, (getPreferredPlaybackState api), n; cbn;
        eexists; by rewrite <- ?app_assoc.
    - cbn. unfold settle.
      destruct (pending w !! p); [| exists []; by rewrite app_nil_r].
      destruct result as [media|]; [| exists []; cbn; by rewrite app_nil_r].
      match goal with |- context [_loadMedia lib media ?w0] => set (w1 := w0) end.
      destruct (_player (this w)) as [pl|] eqn:Hpl.
      + destruct (loadMedia_effects lib media w1) as (Htr & _).
        { subst w1. cbn. rewrite Hpl. by eexists. }
        eexists. exact Htr.
      + unfold _loadMedia. subst w1. cbn. rewrite Hpl. cbn.
        exists []. by rewrite app_nil_r.
    - exists []. cbn. by rewrite app_nil_r. }
  by rewrite (new_effects_app lib w op es Hes).
Qed.

Lemma step_same_options (lib : Library) (w : World) (op : Operation) :
  same_options (this (step lib w op)) (this w).
Proof.
  destruct op as [player | detail | | wide doc | p result | api]; cbn.
  - by repeat split.
  - unfold _onNextVideo.
    destruct (_player (this w)); [| by repeat split].
    destruct (negb _); [by repeat split |]. cbn. unfold dispose_tracking. cbn.
    destruct (_tracking (this w)); by repeat split.
  - unfold _onFullscreenChange.
    destruct (_player (this w)); [| by repeat split].
    destruct (isFullscreen _); [by repeat split |].
    destruct (negb _); by repeat split.
  - unfold _onSizeChange.
    destruct (_player (this w)); [| by repeat split].
    destruct (main_content_children doc) as [[| n]|]; [| | by repeat split];
      (destruct (_ && _); [| by repeat split]);
      destruct wide, (getPreferredPlaybackState _); by repeat split.
  - unfold settle. destruct (pending w !! p); [| by repeat split].
    destruct result as [media|]; [| by repeat split].
    unfold _loadMedia. cbn.
    destruct (_player (this w)); [| by repeat split]. cbn.
    unfold dispose_tracking. cbn.
    destruct (_tracking (this w)); cbn;
      match goal with
      | |- context [default false ?a] => destruct (default false a)
      end; by repeat split.
  - by repeat split.
Qed.

Lemma same_options_trans (a b c : PlayerController) :
  same_options a b → same_options b c → same_options a c.
Proof.
  unfold same_options. intros H1 H2.
  destruct H1 as (?&?&?&?&?&?&?&?), H2 as (?&?&?&?&?&?&?&?).
  repeat split; congruence.
Qed.

Lemma make_config_same_options (lib : Library) (c c' : PlayerController)
    (media : IMedia) :
  same_options c c' → make_config lib c media = make_config lib c' media.
Proof.
  intros (_ & _ & Hst & Hap & _). unfold make_config.
  by rewrite Hst, Hap.
Qed.

Lemma quality_arg_same_options (c c' : PlayerController) :
  same_options c c' → quality_arg c = quality_arg c'.
Proof.
  intros (_ & _ & _ & _ & _ & Hq & Hmf & Hmq). unfold quality_arg.
  by rewrite Hq, Hmf, Hmq.
Qed.

Lemma autoplay_make_config (lib : Library) (c : PlayerController)
    (media : IMedia) :
  autoplay (make_config lib c media)
  = Some (match _autoPlay c with Some a => a | None => isAutoPlay media end).
Proof.
  unfold make_config. destruct (truthy _); [destruct (_ ≫= _) |]; reflexivity.
Qed.

Lemma step_expected (lib : Library) (c0 : PlayerController) (w : World)
    (op : Operation) :
  same_options (this w) c0 →
  Forall (expected lib c0) (new_effects lib w op).
Proof.
  intros Hsame. pose proof (new_effects_cases lib w op) as H. cbv zeta in H.
  assert (Haf : _affiliateId (this w) = _affiliateId c0) by apply Hsame.
  pose proof (quality_arg_same_options _ _ Hsame) as Hq.
  destruct op as [player | detail | | wide doc | p result | api].
  - rewrite H. repeat constructor; assumption.
  - rewrite H. destruct (_ && _); [| constructor].
    constructor; [exact I |]. apply Forall_app. split.
    + destruct (_tracking _); repeat constructor.
    + repeat constructor; assumption.
  - destruct H as [hrefs ->]. induction hrefs; by constructor.
  - eapply Forall_impl; [exact H |]. intros e [He | ->]; [| exact I].
    by destruct e.
  - rewrite H. destruct (pending w !! p); [| constructor].
    destruct result as [media|]; [| constructor].
    destruct (_player (this w)); [| constructor].
    apply Forall_app. split; [destruct (_tracking _); repeat constructor |].
    constructor; [exact I |]. constructor; [| constructor].
    rewrite (make_config_same_options lib _ c0 media Hsame).
    pose proof (autoplay_make_config lib c0 media) as Hap.
    destruct (match _autoPlay c0 with Some a => a | None => _ end);
      rewrite Hap; cbn; [right |]; by exists media.
  - rewrite H. constructor.
Qed.

(** Along a session the options stay what construction made them, and
    every effect is one a controller with those options may add. *)
Lemma run_expected (lib : Library) (c0 : PlayerController) (api : PlayerApi)
    (ops : list Operation) :
  let w := run lib (new_world c0 api) ops in
  same_options (this w) c0 ∧ Forall (expected lib c0) (trace w).
Proof.
  apply (run_invariant lib
           (λ w, same_options (this w) c0 ∧ Forall (expected lib c0) (trace w))).
  - intros w op [Hsame Htr]. split.
    + eapply same_options_trans; [apply step_same_options | exact Hsame].
    + rewrite trace_step. apply Forall_app. split; [exact Htr |].
      by apply step_expected.
  - split; [by repeat split | constructor].
Qed.

Lemma elem_of_requests (tr : list Effect) (r : Request) :
  r ∈ requests tr → ∃ p, Call p r ∈ tr.
Proof.
  unfold requests. rewrite list_elem_of_omap. intros (e & He & Hr).
  destruct e; try discriminate. injection Hr as ->. by eexists.
Qed.

Lemma elem_of_media_configs (tr : list Effect) (loaded : bool)
    (c : IPlayerConfig) :
  (loaded, c) ∈ media_configs tr →
  is_Some (url c) ∧
  (if loaded then LoadVideoByConfig c ∈ tr else CueVideoByConfig c ∈ tr).
Proof.
  unfold media_configs. rewrite list_elem_of_omap. intros (e & He & Hc).
  destruct e; try discriminate; case_bool_decide; try discriminate;
    injection Hc as <- <-; by split.
Qed.

Lemma usable_quality_arg (url mediaId : string)
    (o : IPlayerControllerOptions) :
  usable (quality_arg (constructor url mediaId (Some o))) = true.
Proof.
  unfold quality_arg. cbn.
  destruct (truthy (opt_mediaFormat o) && truthy (opt_mediaQuality o)) eqn:H;
    cbn; [exact H |].
  destruct (truthy (opt_quality o)) eqn:Hq; [exact Hq | reflexivity].
Qed.

(** X10: in a session of a controller made with options, every media
    resolution that is requested, at start or on a next-video transition,
    carries a usable quality selection (a format and a quality that are both
    defined and not empty, or else a single such quality) and the affiliate
    id given in the options. *)
Theorem requests_carry_the_options (lib : Library) (url mediaId : string)
    (o : IPlayerControllerOptions) (api : PlayerApi) (ops : list Operation) :
  let w := run lib (new_world (constructor url mediaId (Some o)) api) ops in
  Forall (λ r,
            usable (request_quality r) = true ∧
            affiliateId (request_options r) = opt_affiliateId o)
    (requests (trace w)).
Proof.
  intros w. apply Forall_forall. intros r Hr.
  apply elem_of_requests in Hr as [p Hp].
  destruct (run_expected lib (constructor url mediaId (Some o)) api ops)
    as [_ Hall].
  rewrite Forall_forall in Hall. specialize (Hall _ Hp) as [Hq Haf].
  split; [| exact Haf]. rewrite Hq. apply usable_quality_arg.
Qed.

Lemma startTime_make_config (lib : Library) (c : PlayerController)
    (media : IMedia) (s : number) :
  _startTime c = Some s → startTime (make_config lib c media) = Some s.
Proof.
  intros Hs. unfold make_config. rewrite Hs.
  destruct (truthy _); [destruct (_ ≫= _) |]; reflexivity.
Qed.

(** X11: a start time given in the options is the start time of every
    Media handed to the player during the session, those reached through
    next-video transitions included, whatever start time the Media itself
    carries. *)
Theorem startTime_option_applies_to_every_media (lib : Library)
    (url mediaId : string) (options : option IPlayerControllerOptions)
    (api : PlayerApi) (ops : list Operation) (s : number) :
  let c0 := constructor url mediaId options in
  _startTime c0 = Some s →
  Forall (λ handed, startTime handed.2 = Some s)
    (media_configs (trace (run lib (new_world c0 api) ops))).
Proof.
  intros c0 Hs. apply Forall_forall. intros [loaded c] Hc.
  apply elem_of_media_configs in Hc as [[src Hsrc] Hc].
  destruct (run_expected lib c0 api ops) as [_ Hall].
  rewrite Forall_forall in Hall.
  destruct loaded; specialize (Hall _ Hc); cbn in Hall.
  - destruct Hall as [Hnone | (media & -> & _)]; [congruence |].
    by apply startTime_make_config.
  - destruct Hall as (media & -> & _). by apply startTime_make_config.
Qed.

Lemma startTime_option_applies_to_every_media_witness :
  (λ handed : bool * IPlayerConfig, startTime handed.2)
    <$> media_configs
          (trace (run Sample.lib0
                    (new_world
                       (constructor "/ep1" "M1" (Some Scenario.all_options))
                       Sample.windowed)
                    Scenario.two_episodes))
  = [Some (Num 90); Some (Num 90)].
Proof.
  pose proof (startTime_option_applies_to_every_media Sample.lib0 "/ep1" "M1"
                (Some Scenario.all_options) Sample.windowed
                Scenario.two_episodes (Num 90) eq_refl) as H.
  remember (media_configs _) as handed eqn:Hh.
  assert (List.length handed = 2%nat) as Hlen by (subst handed; reflexivity).
  destruct handed as [| a [| b [| ? ?]]]; try discriminate Hlen.
  apply Forall_cons in H as [Ha H]. apply Forall_cons in H as [Hb _].
  cbn. by rewrite Ha, Hb.
Defined.

(** X12: a Media is loaded when the autoplay of its configuration is true
    and cued when it is false; and with an autoplay option given, that
    option decides for every Media of the session, so that with the option
    false even the Media of a next-video transition is cued, although its
    resolution asks for autoplay. *)
Theorem autoPlay_option_decides_load_or_cue (lib : Library)
    (url mediaId : string) (options : option IPlayerControllerOptions)
    (api : PlayerApi) (ops : list Operation) :
  let c0 := constructor url mediaId options in
  Forall (λ handed,
            autoplay handed.2 = Some handed.1 ∧
            ∀ a, _autoPlay c0 = Some a → handed.1 = a)
    (media_configs (trace (run lib (new_world c0 api) ops))).
Proof.
  intros c0. apply Forall_forall. intros [loaded c] Hc.
  apply elem_of_media_configs in Hc as [[src Hsrc] Hc].
  destruct (run_expected lib c0 api ops) as [_ Hall].
  rewrite Forall_forall in Hall. cbn.
  assert (∃ media, c = make_config lib c0 media ∧ autoplay c = Some loaded)
    as (media & -> & Hap).
  { destruct loaded; specialize (Hall _ Hc); cbn in Hall; [| exact Hall].
    destruct Hall as [Hnone | Hall]; [congruence | exact Hall]. }
  split; [exact Hap |]. intros a Ha.
  rewrite autoplay_make_config, Ha in Hap. congruence.
Qed.

Lemma autoPlay_option_decides_load_or_cue_witness :
  (λ handed : bool * IPlayerConfig, handed.1)
    <$> media_configs
          (trace (run Sample.lib0
                    (new_world
                       (constructor "/ep1" "M1" (Some Scenario.all_options))
                       Sample.windowed)
                    Scenario.two_episodes))
  = [false; false].
Proof.
  pose proof (autoPlay_option_decides_load_or_cue Sample.lib0 "/ep1" "M1"
                (Some Scenario.all_options) Sample.windowed
                Scenario.two_episodes) as H.
  cbv zeta in H.
  remember (media_configs _) as handed eqn:Hh.
  assert (List.length handed = 2%nat) as Hlen by (subst handed; reflexivity).
  destruct handed as [| a [| b [| ? ?]]]; try discriminate Hlen.
  apply Forall_cons in H as [[_ Ha] H]. apply Forall_cons in H as [[_ Hb] _].
  cbn. by rewrite (Ha false eq_refl), (Hb false eq_refl).
Defined.

Lemma step_before_player_ready (lib : Library) (w : World) (op : Operation) :
  _player (this w) = None → pending w = ∅ → is_PlayerReady op = false →
  this (step lib w op) = this w ∧ trace (step lib w op) = trace w ∧
  pending (step lib w op) = ∅.
Proof.
  intros Hnone Hpending Hop.
  destruct op as [player | detail | | wide doc | p result | api]; cbn.
  - discriminate Hop.
  - unfold _onNextVideo. by rewrite Hnone.
  - unfold _onFullscreenChange. by rewrite Hnone.
  - unfold _onSizeChange. by rewrite Hnone.
  - unfold settle. by rewrite Hpending, lookup_empty.
  - done.
Qed.

(** X8: until the widget reports that it is ready, the controller does
    nothing: whatever next-video requests, fullscreen changes, size toggles
    or settlements arrive, its fields stay as constructed, no effect is
    produced and no resolution is requested. *)
Theorem inert_before_player_ready (lib : Library) (url mediaId : string)
    (options : option IPlayerControllerOptions) (api : PlayerApi)
    (ops : list Operation) :
  forallb (λ op, negb (is_PlayerReady op)) ops = true →
  let w := run lib (new_world (constructor url mediaId options) api) ops in
  this w = constructor url mediaId options ∧ trace w = [] ∧ pending w = ∅.
Proof.
  set (c0 := constructor url mediaId options).
  assert (Hnone : _player c0 = None) by (by destruct options).
  assert (∀ w,
            this w = c0 → trace w = [] → pending w = ∅ →
            forallb (λ op, negb (is_PlayerReady op)) ops = true →
            this (run lib w ops) = c0 ∧ trace (run lib w ops) = [] ∧
            pending (run lib w ops) = ∅) as Hrun.
  { induction ops as [| op ops IH]; intros w Hthis Htrace Hpending Hops;
      [by repeat split |].
    cbn in Hops. apply andb_true_iff in Hops as [Hop Hops].
    apply negb_true_iff in Hop.
    destruct (step_before_player_ready lib w op) as (Hthis' & Htrace' & Hp');
      [by rewrite Hthis | exact Hpending | exact Hop |].
    cbn. apply IH; [congruence | congruence | exact Hp' | exact Hops]. }
  intros Hops. by apply Hrun.
Qed.

Lemma inert_before_player_ready_witness :
  trace (run Sample.lib0 Sample.start
           [ WidgetChanged Sample.fullscreen;
             NextVideoRequested Sample.to_ep2; FullscreenChanged;
             SizeChanged true Scenario.full_page;
             Settled 0 (Some Sample.media_ep2) ])
  = [].
Proof.
  apply (inert_before_player_ready Sample.lib0 "/ep1" "M1" None Sample.windowed).
  reflexivity.
Defined.

(** How each operation moves the tracked URL. *)
Lemma step_url (lib : Library) (w : World) (op : Operation) :
  _url (this (step lib w op))
  = match op with
    | NextVideoRequested detail =>
        if bool_decide (is_Some (_player (this w))) && isFullscreen (widget w)
        then detail_url detail else _url (this w)
    | _ => _url (this w)
    end.
Proof.
  destruct op as [player | detail | | wide doc | p result | api]; cbn.
  - reflexivity.
  - unfold _onNextVideo.
    destruct (_player (this w)) as [pl|]; cbn; [| reflexivity].
    destruct (isFullscreen (widget w)); cbn; [| reflexivity].
    unfold dispose_tracking. cbn.
    destruct (_tracking (this w)); reflexivity.
  - unfold _onFullscreenChange.
    destruct (_player (this w)); [| reflexivity].
    destruct (isFullscreen (widget w)); [reflexivity |].
    destruct (negb _); reflexivity.
  - unfold _onSizeChange.
    destruct (_player (this w)); [| reflexivity].
    destruct (main_content_children doc) as [[| n]|]; [| | reflexivity];
      (destruct (has_showmedia doc && has_showmedia_video doc);
       [| reflexivity]);
      destruct wide, (getPreferredPlaybackState (widget w)); reflexivity.
  - unfold settle. destruct (pending w !! p); [| reflexivity].
    destruct result as [media|]; [| reflexivity].
    match goal with |- context [_loadMedia lib media ?w0] => set (w1 := w0) end.
    destruct (_player (this w1)) as [pl|] eqn:Hpl.
    + destruct (loadMedia_effects lib media w1) as (_ & _ & Hurl & _).
      { rewrite Hpl. by eexists. }
      exact Hurl.
    + unfold _loadMedia. rewrite Hpl. reflexivity.
  - reflexivity.
Qed.

(** X9: the tracked URL moves only with an honoured next-video request: no
    settlement, fullscreen change or size toggle alters it, and as long as
    [_changedMedia] is false it is still the URL the controller was
    constructed with. *)
Theorem tracked_url_moves_only_on_transition (lib : Library)
    (url mediaId : string) (options : option IPlayerControllerOptions)
    (api : PlayerApi) (ops : list Operation) :
  let w := run lib (new_world (constructor url mediaId options) api) ops in
  (∀ op,
     _url (this (step lib w op)) ≠ _url (this w) →
     ∃ detail,
       op = NextVideoRequested detail ∧
       is_Some (_player (this w)) ∧ isFullscreen (widget w) = true) ∧
  (_changedMedia (this w) = false → _url (this w) = url).
Proof.
  intros w. split.
  - intros op Hop. rewrite step_url in Hop.
    destruct op as [| detail | | | |]; try congruence.
    exists detail. destruct (bool_decide _ && _) eqn:H; [| congruence].
    apply andb_true_iff in H as [Hp Hf].
    by apply bool_decide_eq_true in Hp.
  - subst w.
    apply (run_invariant lib
             (λ w, _changedMedia (this w) = false → _url (this w) = url)).
    + intros w op IH Hcm. rewrite step_changedMedia in Hcm.
      rewrite step_url. destruct op as [| detail | | | |]; try by apply IH.
      apply orb_false_iff in Hcm as [Hcm Hhon]. rewrite Hhon. by apply IH.
    + intros _. by destruct options.
Qed.

Lemma tracked_url_moves_only_on_transition_witness :
  _url (this (run Sample.lib0 Sample.start
                [ PlayerReady PlayerRef; NextVideoRequested Sample.to_ep2;
                  Settled 0 (Some Sample.media_ep2) ]))
  = "/ep1".
Proof.
  destruct (tracked_url_moves_only_on_transition Sample.lib0 "/ep1" "M1" None
              Sample.windowed
              [ PlayerReady PlayerRef; NextVideoRequested Sample.to_ep2;
                Settled 0 (Some Sample.media_ep2) ]) as [_ Hurl].
  apply Hurl. reflexivity.
Defined.

End SessionProperties.

(** ** Properties of the slider under input *)

Section SliderInputProperties.

Import Slider SliderInput.

Lemma Qle_bool_false (x y : Q) : Qle_bool x y = false ↔ (y < x)%Q.
Proof.
  rewrite <- not_true_iff_false, Qle_bool_iff. split; [apply Qnot_le_lt |].
  intros H1 H2. lra.
Qed.

(** A value restrained between two bounds in order passes the range check
    against them. *)
Lemma restrain_passes (a x b : number) :
  number_ge a b = false →
  number_lt (Math_min (Math_max a x) b) a = false ∧
  number_gt (Math_min (Math_max a x) b) b = false.
Proof.
  destruct a as [a|], x as [x|], b as [b|]; cbn; try done.
  all: try (unfold number_gt; cbn; by destruct (Qle_bool _ _)).
  intros Hab.
  destruct (Qle_bool a x) eqn:Hax; cbn;
    match goal with
    | |- context [Qle_bool ?u b] => destruct (Qle_bool u b) eqn:Hub
    end; unfold number_gt; cbn;
    rewrite !negb_false_iff, !Qle_bool_iff;
    repeat match goal with
      | H : Qle_bool _ _ = true |- _ => apply Qle_bool_iff in H
      | H : Qle_bool _ _ = false |- _ => apply Qle_bool_false in H
      end;
    split; lra.
Qed.

Lemma setValue_passes (v : number) (s : SpeedSliderComponent) :
  out_of_bounds s v = false →
  ∃ s' es,
    setValue v s = (Returned, s', es) ∧
    _minValue s' = _minValue s ∧ _maxValue s' = _maxValue s ∧
    (s' = s ∧ es = [] ∧ value_is s v = true ∨
     s' = set_value v s ∧ es = [SetSpeed v] ∧ value_is s v = false).
Proof.
  intros Hv. unfold setValue. rewrite Hv.
  destruct (value_is s v); eexists _, _;
    do 3 (split; [reflexivity |]); [left | right]; done.
Qed.

(** X13: changing a bound never fails the range check of the value.
    [setMinValue] and [setMaxValue] throw only their own error, for bounds
    out of order (which leaves the component untouched); the error
    "Value is out of bounds." of [setValue] cannot come out of them, for any
    arguments, NaN included. *)
Theorem bounds_change_never_raises_value_error
    (s : SpeedSliderComponent) (m : number) :
  let value_error := Thrown (RangeError "Value is out of bounds.") in
  (setMinValue m s).1.1 ≠ value_error ∧
  (setMaxValue m s).1.1 ≠ value_error ∧
  (number_eq (_minValue s) m = false → number_ge m (getMaxValue s) = true →
   ∃ e, setMinValue m s = (Thrown e, s, [])) ∧
  (number_eq (_maxValue s) m = false → number_le m (getMinValue s) = true →
   ∃ e, setMaxValue m s = (Thrown e, s, [])).
Proof.
  cbv zeta. unfold setMinValue, setMaxValue. repeat split.
  - destruct (number_eq _ m); [discriminate |].
    destruct (number_ge m (getMaxValue s)) eqn:Hord; [discriminate |].
    match goal with |- context [setValue ?v ?s1] =>
      destruct (setValue_passes v s1) as (s' & es & -> & _) end;
      [| discriminate].
    apply orb_false_iff.
    exact (restrain_passes m (to_number (getValue s)) (getMaxValue s) Hord).
  - destruct (number_eq _ m); [discriminate |].
    destruct (number_le m (getMinValue s)) eqn:Hord; [discriminate |].
    match goal with |- context [setValue ?v ?s1] =>
      destruct (setValue_passes v s1) as (s' & es & -> & _) end;
      [| discriminate].
    apply orb_false_iff.
    exact (restrain_passes (getMinValue s) (to_number (getValue s)) m Hord).
  - intros -> ->. by eexists.
  - intros -> ->. by eexists.
Qed.

Lemma bounds_change_never_raises_value_error_witness :
  ∃ e, setMinValue (Num 4) Sample.fast_slider
       = (Thrown e, Sample.fast_slider, []).
Proof.
  destruct (bounds_change_never_raises_value_error Sample.fast_slider (Num 4))
    as (_ & _ & Hmin & _).
  apply Hmin; reflexivity.
Defined.

Ltac to_Q :=
  repeat match goal with
    | H : Qle_bool _ _ = true |- _ => apply Qle_bool_iff in H
    | H : Qle_bool _ _ = false |- _ => apply Qle_bool_false in H
    | H : Qeq_bool _ _ = true |- _ => apply Qeq_bool_iff in H
    | H : Qeq_bool _ _ = false |- _ => clear H
    end.

Ltac Q_cases :=
  repeat match goal with
    | |- context [Qle_bool ?a ?b] => destruct (Qle_bool a b) eqn:?; cbn
    | |- context [Qeq_bool ?a ?b] => destruct (Qeq_bool a b) eqn:?; cbn
    end.

(** X14: a bound change that goes through restrains the value: when the
    component has a value, the other bound is a number, and the new bound
    is a number that differs from the old one and is in order with the
    other bound, the method returns, the bound is set, and the value lies
    between the bounds afterwards. *)
Theorem bound_change_restrains_value
    (s : SpeedSliderComponent) (m x : Q) :
  _value s = Some (Num x) →
  (number_eq (_minValue s) (Num m) = false →
   isFinite (getMaxValue s) = true →
   number_ge (Num m) (getMaxValue s) = false →
   ∃ s' es,
     setMinValue (Num m) s = (Returned, s', es) ∧
     _minValue s' = Num m ∧ _maxValue s' = _maxValue s ∧
     within_bounds s' = true) ∧
  (number_eq (_maxValue s) (Num m) = false →
   isFinite (getMinValue s) = true →
   number_le (Num m) (getMinValue s) = false →
   ∃ s' es,
     setMaxValue (Num m) s = (Returned, s', es) ∧
     _minValue s' = _minValue s ∧ _maxValue s' = Num m ∧
     within_bounds s' = true).
Proof.
  intros Hx. destruct s as [dr inc mn mx val]. cbn in Hx. subst val.
  split; intros Hne Hfin Hord.
  - unfold setMinValue. rewrite Hne, Hord.
    destruct mx as [b|]; [| discriminate Hfin]. cbn in Hord.
    unfold setValue, value_is, out_of_bounds, within_bounds, number_gt,
      number_le. cbn.
    Q_cases; to_Q; try discriminate; try (exfalso; lra);
      eexists _, _; (split; [reflexivity |]); cbn;
      repeat split; rewrite ?andb_true_iff, ?Qle_bool_iff; try lra.
  - unfold setMaxValue. rewrite Hne, Hord.
    destruct mn as [a|]; [| discriminate Hfin]. cbn in Hord.
    unfold setValue, value_is, out_of_bounds, within_bounds, number_gt,
      number_le. cbn.
    Q_cases; to_Q; try discriminate; try (exfalso; lra);
      eexists _, _; (split; [reflexivity |]); cbn;
      repeat split; rewrite ?andb_true_iff, ?Qle_bool_iff; try lra.
Qed.

Lemma bound_change_restrains_value_witness :
  ∃ s' es,
    setMaxValue (Num 3) Sample.fast_slider = (Returned, s', es) ∧
    _value s' = Some (Num 3) ∧ es = [SetSpeed (Num 3)].
Proof.
  destruct (bound_change_restrains_value Sample.fast_slider 3 5 eq_refl)
    as [_ Hmax].
  destruct Hmax as (s' & es & Hset & _);
    [reflexivity | reflexivity | reflexivity |].
  exists s', es. split; [exact Hset |].
  vm_compute in Hset. injection Hset as <- <-. by split.
Defined.

Lemma setValue_keeps_bounds (v : number) (s : SpeedSliderComponent) :
  _minValue (setValue v s).1.2 = _minValue s ∧
  _maxValue (setValue v s).1.2 = _maxValue s.
Proof.
  unfold setValue. destruct (value_is s v); [done |].
  by destruct (out_of_bounds s v).
Qed.

Lemma handled_keeps_bounds (v : number) (s : SpeedSliderComponent) :
  _minValue (handled v s).1.2 = _minValue s ∧
  _maxValue (handled v s).1.2 = _maxValue s.
Proof.
  pose proof (setValue_keeps_bounds v s) as H. unfold handled.
  by destruct (setValue v s) as [[[|e] s'] es].
Qed.

Lemma onKeyDown_keeps_bounds (add sub : number → number → number)
    (k : Z) (s : SpeedSliderComponent) :
  _minValue (_onKeyDown add sub k s).1.2 = _minValue s ∧
  _maxValue (_onKeyDown add sub k s).1.2 = _maxValue s.
Proof.
  unfold _onKeyDown. repeat case_match; try done; apply handled_keeps_bounds.
Qed.

Lemma step_keeps_order (add sub : number → number → number)
    (s : SpeedSliderComponent) (op : Operation) :
  finite_bound op = true →
  number_lt (getMinValue s) (getMaxValue s) = true →
  number_lt (getMinValue (step add sub s op).1.2)
    (getMaxValue (step add sub s op).1.2) = true.
Proof.
  intros Hop Hs. unfold getMinValue, getMaxValue in *.
  destruct op as [v | v | v | v | k | v]; cbn.
  - by destruct (setValue_keeps_bounds v s) as [-> ->].
  - unfold setMinValue. destruct (number_eq _ v); [exact Hs |].
    destruct (number_ge v (getMaxValue s)) eqn:Hord; [exact Hs |].
    match goal with |- context [setValue ?x ?s1] =>
      destruct (setValue_keeps_bounds x s1) as [-> ->] end.
    cbn. destruct v as [m|]; [| discriminate Hop].
    unfold getMaxValue in Hord. destruct (_maxValue s) as [b|];
      [| by destruct (_minValue s)].
    cbn in *. by rewrite Hord.
  - unfold setMaxValue. destruct (number_eq _ v); [exact Hs |].
    destruct (number_le v (getMinValue s)) eqn:Hord; [exact Hs |].
    match goal with |- context [setValue ?x ?s1] =>
      destruct (setValue_keeps_bounds x s1) as [-> ->] end.
    cbn. destruct v as [m|]; [| discriminate Hop].
    unfold getMinValue in Hord. destruct (_minValue s) as [a|];
      [| discriminate Hs].
    cbn in *. by rewrite Hord.
  - exact Hs.
  - by destruct (onKeyDown_keeps_bounds add sub k s) as [-> ->].
  - exact Hs.
Qed.

(** X15: as long as the bounds given to [setMinValue] and [setMaxValue]
    are numbers, the minimum stays below the maximum through every series
    of value changes, bound changes, speed reports and key presses,
    whichever of them throw. *)
Theorem bounds_stay_in_order (add sub : number → number → number)
    (speed : number) (ops : list Operation) :
  forallb finite_bound ops = true →
  let s := after add sub (Slider.constructor speed) ops in
  number_lt (getMinValue s) (getMaxValue s) = true.
Proof.
  intros Hops.
  assert (∀ s,
            number_lt (getMinValue s) (getMaxValue s) = true →
            number_lt (getMinValue (after add sub s ops))
              (getMaxValue (after add sub s ops)) = true) as Hrun.
  { induction ops as [| op ops IH]; intros s Hs; [exact Hs |].
    cbn in Hops. apply andb_true_iff in Hops as [Hop Hops].
    cbn. apply (IH Hops). by apply step_keeps_order. }
  apply Hrun. reflexivity.
Qed.

Lemma bounds_stay_in_order_witness :
  let s :=
    after Scenario.exact_add Scenario.exact_sub (Slider.constructor (Num 1))
      [ SetMinValue (Num 2); SetMaxValue (Num 1); SpeedChanged (Num 9);
        KeyDown 37; SetMaxValue (Num 3) ] in
  number_lt (getMinValue s) (getMaxValue s) = true.
Proof.
  apply (bounds_stay_in_order Scenario.exact_add Scenario.exact_sub (Num 1)).
  reflexivity.
Defined.

Lemma handled_returns (v : number) (s : SpeedSliderComponent) :
  out_of_bounds s v = false →
  ∃ s' api,
    handled v s
    = (Returned, s', (Api <$> api) ++ [StopPropagation; PreventDefault])%list.
Proof.
  intros Hv. destruct (setValue_passes v s Hv) as (s' & es & Hset & _).
  exists s', es. unfold handled. by rewrite Hset.
Qed.

(** X16: with the minimum below the maximum, a key press never throws,
    whatever the rounding of the engine's arithmetic: End, Home and the four
    arrows (codes 35 to 40) return and then stop the event; any other key
    is left alone, the component and the event untouched. *)
Theorem onKeyDown_never_throws (add sub : number → number → number)
    (k : Z) (s : SpeedSliderComponent) :
  number_lt (getMinValue s) (getMaxValue s) = true →
  ∃ s' es,
    _onKeyDown add sub k s = (Returned, s', es) ∧
    if bool_decide (35 ≤ k ≤ 40)%Z
    then ∃ api, es = ((Api <$> api) ++ [StopPropagation; PreventDefault])%list
    else s' = s ∧ es = [].
Proof.
  intros Hs.
  assert (Hord : number_ge (getMinValue s) (getMaxValue s) = false).
  { unfold getMinValue, getMaxValue in *.
    destruct (_minValue s) as [a|], (_maxValue s) as [b|]; try done.
    cbn in *. by apply negb_true_iff in Hs. }
  assert (Hend : out_of_bounds s (getMaxValue s) = false).
  { unfold out_of_bounds, number_gt, getMinValue, getMaxValue in *.
    destruct (_minValue s) as [a|], (_maxValue s) as [b|]; try done.
    cbn in *. Q_cases; to_Q; try done; lra. }
  assert (Hhome : out_of_bounds s (getMinValue s) = false).
  { unfold out_of_bounds, number_gt, getMinValue, getMaxValue in *.
    destruct (_minValue s) as [a|], (_maxValue s) as [b|]; try done.
    cbn in *. Q_cases; to_Q; try done; lra. }
  assert (Harrow : ∀ x, out_of_bounds s (restrain s x) = false).
  { intros x. apply orb_false_iff. by apply restrain_passes. }
  case_bool_decide as Hk.
  - assert (k = 35 ∨ k = 36 ∨ k = 37 ∨ k = 38 ∨ k = 39 ∨ k = 40)%Z
      as [-> | [-> | [-> | [-> | [-> | ->]]]]] by lia; cbn;
      match goal with |- context [handled ?v s] =>
        destruct (handled_returns v s) as (s' & api & ->); [done |] end;
      eexists _, _; (split; [reflexivity | by eexists]).
  - exists s, []. split; [| done].
    unfold _onKeyDown. repeat case_match; try reflexivity; lia.
Qed.

Lemma onKeyDown_never_throws_witness :
  (_onKeyDown Scenario.exact_add Scenario.exact_sub 37
     (Slider.constructor (Num 1))).1.1
  = Returned.
Proof.
  destruct (onKeyDown_never_throws Scenario.exact_add Scenario.exact_sub 37
              (Slider.constructor (Num 1)) eq_refl)
    as (s' & es & -> & _).
  reflexivity.
Defined.

End SliderInputProperties.

(** ** Properties of the speed button *)

Section ButtonProperties.

Import Button.

Lemma label_app (tr es : list Effect) :
  label (tr ++ es)
  = foldl (λ text e,
             match e with
             | SetTextContent t => t
             | _ => text
             end) (label tr) es.
Proof. apply foldl_app. Qed.

Lemma step_agree (toFixed2 : number → string) (props : ISpeedButtonProps)
    (b : SpeedButton) (tr : list Effect) (op : Operation) :
  agree toFixed2 (b, tr) →
  agree toFixed2
    ((step toFixed2 props b op).1, (tr ++ (step toFixed2 props b op).2)%list).
Proof.
  unfold agree. cbn. intros H.
  assert (Hdata : ∀ speed,
            (label (tr ++ (_onSpeedData toFixed2 props speed b).2)
             = rendered_text ∧
             _state (_onSpeedData toFixed2 props speed b).1 = Num 1) ∨
            label (tr ++ (_onSpeedData toFixed2 props speed b).2)
            = toFixed2 (_state (_onSpeedData toFixed2 props speed b).1)
              +:+ "x").
  { intros speed. unfold _onSpeedData, _setState, _onMouseOver.
    destruct (number_eq (_state b) speed); cbn;
      destruct (_mouseover b); cbn; rewrite ?app_nil_r;
      try destruct (onHover props); rewrite ?app_nil_r, ?label_app; cbn;
      rewrite ?label_app; cbn; first [exact H | by right]. }
  destruct op as [| speed | | | speed]; cbn.
  - by rewrite label_app.
  - apply Hdata.
  - destruct (onHover props); by rewrite ?app_nil_r, ?label_app.
  - destruct (onEndHover props); by rewrite ?app_nil_r, ?label_app.
  - apply Hdata.
Qed.

(** X17: the label of the speed button always shows the stored speed.
    After any series of clicks, speed reports and mouse movements, either no
    text was written and the speed is still the initial 1 under the rendered
    label 1.00x, or the label is the stored speed to two decimals followed
    by an x. *)
Theorem label_shows_the_state (toFixed2 : number → string)
    (props : ISpeedButtonProps) (ops : list Operation) :
  let st := run toFixed2 props ops in
  (label st.2 = rendered_text ∧ _state st.1 = Num 1) ∨
  label st.2 = toFixed2 (_state st.1) +:+ "x".
Proof.
  change (agree toFixed2 (run toFixed2 props ops)). unfold run.
  assert (∀ st, agree toFixed2 st →
                agree toFixed2
                  (foldl (λ st op,
                            let (b, es) := step toFixed2 props st.1 op in
                            (b, (st.2 ++ es)%list)) st ops)) as Hrun.
  { induction ops as [| op ops IH]; intros st Hst; [exact Hst |].
    cbn. apply IH. destruct st as [b tr].
    pose proof (step_agree toFixed2 props b tr op Hst) as H.
    cbn. by destruct (step toFixed2 props b op). }
  apply Hrun. left. by split.
Qed.

End ButtonProperties.
